(** * IAcatho: semantic search over a PDF

    A shallow embedding of [src/app.py] (class [MoteurRecherchePDF] and the
    FastAPI endpoints built on it) and of [src/create_index.py] (class
    [IndexeurPDF]), with the properties of the chunker, of the index store and
    of the similarity search that the specification states.

    Conventions of the embedding:
    - a Python [str] is the list of its Unicode code points;
    - a Python [int] is a [Z], a Python [float] is a binary64 [float]
      (Rocq's primitive floats, with the operations of IEEE 754);
    - a function that can raise returns a [result]; a method that assigns to
      [self] before it raises returns the engine it leaves behind as well;
    - the collaborators the repository imports (pypdf, sentence-transformers,
      pickle, numpy's [argsort]) are interfaces, given as type classes. *)

From Stdlib Require Import ZArith NArith Floats Ascii String Sorted Lia.
From stdpp Require Import gmap strings list fin_maps sorting.

Set Warnings "-inexact-float".
Set Default Proof Using "Type".

Local Open Scope Z_scope.

(* ===================================================================== *)
(** * Python values                                                      *)
(* ===================================================================== *)

Module Py.

(** The exceptions the two source files can meet. [ExternalError] stands for
    whatever a collaborator raises (a corrupt PDF, a model failure, ...). *)
Inductive exn :=
| ValueError (msg : string)
| KeyError (key : string)
| IndexError
| OverflowError
| ZeroDivisionError
| FileNotFoundError (path : string)
| ExternalError (msg : string).

Inductive result (A : Type) :=
| Ok (a : A)
| Raise (e : exn).
Arguments Ok {A} a.
Arguments Raise {A} e.

#[global] Instance result_ret : MRet result := @Ok.
#[global] Instance result_bind : MBind result := λ A B f m,
  match m with Ok a => f a | Raise e => Raise e end.

Definition is_ok {A} (r : result A) : bool :=
  match r with Ok _ => true | Raise _ => false end.

(** [for x in xs: acc = body(acc, x)], where the body may raise. *)
Fixpoint for_each {A S} (body : S → A → result S) (xs : list A) (acc : S) : result S :=
  match xs with
  | [] => Ok acc
  | x :: xs' => acc' ← body acc x; for_each body xs' acc'
  end.

(** ** Strings *)

Abbreviation pystr := (list N).

(** An ASCII literal of the source as a Python string. *)
Definition str (s : string) : pystr :=
  N_of_ascii <$> list_ascii_of_string s.

Definition len {A} (l : list A) : Z := Z.of_nat (length l).

(** [Py_UNICODE_ISSPACE]: the characters [str.split()] and [str.strip()]
    treat as whitespace when called without argument. *)
Definition isspace (c : N) : bool :=
  ((9 <=? c) && (c <=? 13) || (28 <=? c) && (c <=? 32)
   || (c =? 133) || (c =? 160) || (c =? 5760)
   || (8192 <=? c) && (c <=? 8202)
   || (c =? 8232) || (c =? 8233) || (c =? 8239) || (c =? 8287)
   || (c =? 12288))%N.

(** [s.split()]: the maximal runs of non-whitespace characters. [cur] is the
    word being read, last character first. *)
Fixpoint split_from (cur : pystr) (s : pystr) : list pystr :=
  match s with
  | [] => match cur with [] => [] | _ => [reverse cur] end
  | c :: s' =>
      if isspace c
      then match cur with
           | [] => split_from [] s'
           | _ => reverse cur :: split_from [] s'
           end
      else split_from (c :: cur) s'
  end.

Definition split (s : pystr) : list pystr := split_from [] s.

Fixpoint lstrip (s : pystr) : pystr :=
  match s with
  | c :: s' => if isspace c then lstrip s' else s
  | [] => []
  end.

(** [s.strip()] *)
Definition strip (s : pystr) : pystr := reverse (lstrip (reverse (lstrip s))).

(** [sep.join(words)] *)
Fixpoint join (sep : pystr) (words : list pystr) : pystr :=
  match words with
  | [] => []
  | [w] => w
  | w :: ws => w ++ sep ++ join sep ws
  end.

(** ** Sequences *)

(** A slice bound as Python normalises it for a sequence of length [n]. *)
Definition clamp_index (n i : Z) : Z :=
  if i <? 0 then Z.max (i + n) 0 else Z.min i n.

(** [l[i:j]] *)
Definition slice {A} (l : list A) (i j : Z) : list A :=
  let lo := clamp_index (len l) i in
  let hi := clamp_index (len l) j in
  take (Z.to_nat (hi - lo)) (drop (Z.to_nat lo) l).

(** [l[i:]] *)
Definition slice_from {A} (l : list A) (i : Z) : list A :=
  drop (Z.to_nat (clamp_index (len l) i)) l.

(** [range(start, stop, step)] as the list of its items. *)
Definition range (start stop step : Z) : result (list Z) :=
  if step =? 0 then Raise (ValueError "range() arg 3 must not be zero")
  else
    let count :=
      if 0 <? step
      then (stop - start + step - 1) / step
      else (start - stop - step - 1) / (- step) in
    Ok ((λ k : nat, start + Z.of_nat k * step) <$> seq 0 (Z.to_nat count)).

(** [l[i]] for [0 <= i] *)
Definition index {A} (l : list A) (i : nat) : result A :=
  match l !! i with
  | Some x => Ok x
  | None => Raise IndexError
  end.

(** ** Numbers *)

(** [float(z)]: the nearest binary64, [OverflowError] beyond the largest. *)
Definition float_of_int (z : Z) : result float :=
  let f := SF2Prim (binary_normalize prec emax z 0 false) in
  if PrimFloat.is_infinity f then Raise OverflowError else Ok f.

(** [int(x)]: truncation towards zero. *)
Definition int_of_float (x : float) : result Z :=
  match Prim2SF x with
  | S754_zero _ => Ok 0
  | S754_finite s m e =>
      let v := if 0 <=? e then Z.pos m * 2 ^ e else Z.pos m / 2 ^ (- e) in
      Ok (if s then - v else v)
  | S754_infinity _ => Raise OverflowError
  | S754_nan => Raise (ValueError "cannot convert float NaN to integer")
  end.

(** [a / b] on two [int]s. The quotient of the converted operands is the
    correctly rounded quotient as long as both are below [2^53], which the
    length of a string always is. *)
Definition true_div (a b : Z) : result float :=
  x ← float_of_int a;
  y ← float_of_int b;
  if PrimFloat.eqb y 0 then Raise ZeroDivisionError
  else Ok (x / y)%float.

(** [z / x] with [z] an [int] and [x] a [float]. *)
Definition int_div_float (z : Z) (x : float) : result float :=
  y ← float_of_int z;
  if PrimFloat.eqb x 0 then Raise ZeroDivisionError
  else Ok (y / x)%float.

(** [s.endswith(suffix)] on the name of a file. *)
Definition endswith (s suffix : string) : bool :=
  let n := String.length s in
  let k := String.length suffix in
  Nat.leb k n && String.eqb (substring (n - k) k s) suffix.

End Py.

Import Py.

(* ===================================================================== *)
(** * The chunker                                                        *)
(* ===================================================================== *)

(** One entry of [pages_texte]: [{'numero_page': ..., 'texte': ...}]. *)
Record Page := PageData {
  numero_page : Z;
  texte : pystr;
}.

(** One entry of [metadata]: a dictionary, [{'page': n}] or [{}]. *)
Abbreviation meta := (gmap string Z).

(** The body of the inner loop of [decouper_en_chunks] (app.py l.73-76,
    create_index.py l.53-56); [acc] is the pair [(chunks, metadata)]. *)
Definition ajouter_fenetre (page_num : Z) (mots : list pystr) (mots_par_chunk : Z)
    (acc : list pystr * list meta) (i : Z) : list pystr * list meta :=
  let chunk := join (str " ") (slice mots i (i + mots_par_chunk)) in
  if 50 <? len (strip chunk)
  then (acc.1 ++ [chunk], acc.2 ++ [{[ "page"%string := page_num ]}])
  else acc.

(** [int(taille / chars_par_mot) if chars_par_mot > 0 else defaut] *)
Definition mots_pour (taille : Z) (chars_par_mot : float) (defaut : Z) : result Z :=
  if PrimFloat.ltb 0 chars_par_mot
  then q ← int_div_float taille chars_par_mot; int_of_float q
  else Ok defaut.

(** The two window sizes of a page, in words (app.py l.68-70):
    [(mots_par_chunk, overlap_mots)]. *)
Definition tailles_en_mots (taille_chunk overlap : Z) (texte : pystr)
    (mots : list pystr) : result (Z * Z) :=
  chars_par_mot ← true_div (len texte) (len mots);
  mots_par_chunk ← mots_pour taille_chunk chars_par_mot 100;
  overlap_mots ← mots_pour overlap chars_par_mot 20;
  Ok (mots_par_chunk, overlap_mots).

(** The body of the outer loop (app.py l.60-76). *)
Definition decouper_page (taille_chunk overlap : Z)
    (acc : list pystr * list meta) (page_data : Page) : result (list pystr * list meta) :=
  let page_num := numero_page page_data in
  let mots := split (texte page_data) in
  match mots with
  | [] => Ok acc
  | _ =>
      '(mots_par_chunk, overlap_mots) ← tailles_en_mots taille_chunk overlap (texte page_data) mots;
      debuts ← range 0 (len mots) (mots_par_chunk - overlap_mots);
      Ok (foldl (ajouter_fenetre page_num mots mots_par_chunk) acc debuts)
  end.

(** [decouper_en_chunks(pages_texte, taille_chunk=500, overlap=100)], the same
    in both source files. *)
Definition decouper_en_chunks (pages_texte : list Page)
    (taille_chunk overlap : Z) : result (list pystr * list meta) :=
  for_each (decouper_page taille_chunk overlap) pages_texte ([], []).

Definition taille_chunk_defaut : Z := 500.
Definition overlap_defaut : Z := 100.


(* ===================================================================== *)
(** * numpy                                                              *)
(* ===================================================================== *)

Module Np.

(** A two-dimensional array, as the list of its rows. The embeddings of
    sentence-transformers are binary32; the model computes in binary64, with
    the same IEEE 754 rules for zero, infinity, NaN and comparison. A list
    does not tell the shape of an array with no row, so search is stated for
    indexes of at least one chunk. *)
Abbreviation ndarray := (list (list float)).

(** The sum of the products, from left to right. BLAS and numpy's pairwise
    summation may add in another order and round differently; nothing below
    depends on the order. *)
Definition dot1 (u v : list float) : float :=
  foldl (λ acc p, acc + p.1 * p.2)%float 0%float (zip u v).

(** [np.dot(a, v)] for [a] of shape (n, d) and [v] of shape (d,). *)
Definition dot (a : ndarray) (v : list float) : result (list float) :=
  if forallb (λ row, Nat.eqb (length row) (length v)) a
  then Ok ((λ row, dot1 row v) <$> a)
  else Raise (ValueError "shapes not aligned").

(** [np.linalg.norm(v)] *)
Definition norm (v : list float) : float := PrimFloat.sqrt (dot1 v v).

(** [np.linalg.norm(a, axis=1)] *)
Definition norm_axis1 (a : ndarray) : list float := norm <$> a.

(** [x * s] and [x / y], element by element. *)
Definition times (x : list float) (s : float) : list float :=
  (λ a, a * s)%float <$> x.
Definition divide (x y : list float) : list float :=
  zip_with PrimFloat.div x y.

(** The order numpy sorts floats by: [a < b || (b != b && a == a)], which
    puts NaN after every number. *)
Definition lt (a b : float) : bool :=
  PrimFloat.ltb a b || (negb (PrimFloat.eqb b b) && PrimFloat.eqb a a).

(** [v[i]] for [i] an index [argsort] returned. *)
Definition item (v : list float) (i : nat) : float := nth i v nan.

(** [np.argsort(v)]: numpy documents that it returns the indices that sort
    [v], and leaves the order of equal elements open for the default kind
    (its vectorised sorts are not stable). *)
Class Argsort := {
  argsort : list float → list nat;
  argsort_perm v : argsort v ≡ₚ seq 0 (length v);
  argsort_sorted v :
    StronglySorted (λ i j, lt (item v j) (item v i) = false) (argsort v);
}.

(** The scalar path of numpy's default sort for at most 16 elements
    (npysort/quicksort.cpp): an insertion sort, which moves each index to the
    left while its value is less than the one before. [sorted] holds the
    indices already placed, last first. *)
Fixpoint insert_left (v : list float) (i : nat) (sorted : list nat) : list nat :=
  match sorted with
  | [] => [i]
  | k :: rest =>
      if lt (item v i) (item v k) then k :: insert_left v i rest
      else i :: sorted
  end.

Definition argsort_insertion (v : list float) : list nat :=
  reverse (foldl (λ sorted i, insert_left v i sorted) [] (seq 0 (length v))).

End Np.

(* ===================================================================== *)
(** * The collaborators                                                  *)
(* ===================================================================== *)

(** [SentenceTransformer(model_name)]: [encode] maps texts to the rows of an
    array; [model_card_vars] is the private [_model_card_vars] dictionary
    create_index.py reads the model name from. *)
Class SentenceTransformer := {
  model_name : string;
  model_card_vars : gmap string string;
  encode : list pystr → result Np.ndarray;
}.

(** [PdfReader(chemin).pages], each through [extract_text()]. *)
Class PdfReader := {
  extract_pages : string → result (list pystr);
}.

(** The dictionary the two programs pickle, with the keys they write or read:
    a key is absent when its field is [None]. The value under
    ['embeddings'] is [self.embeddings], an array or Python's [None]. *)
Record artifact := Artifact {
  a_chunks : option (list pystr);
  a_embeddings : option (option Np.ndarray);
  a_metadata : option (list meta);
  a_model_name : option string;
}.

(** [pickle.dump] and [pickle.load] on the content of a file: what was dumped
    loads back; other contents may fail to load. *)
Class Pickle := {
  blob : Type;
  dumps : artifact → blob;
  loads : blob → result artifact;
  loads_dumps a : loads (dumps a) = Ok a;
}.

(* ===================================================================== *)
(** * The engine: class MoteurRecherchePDF                               *)
(* ===================================================================== *)

(** The attributes of [self] besides the model. *)
Record moteur_state := Moteur {
  chunks : list pystr;
  embeddings : option Np.ndarray;
  metadata : list meta;
}.

(** [__init__] *)
Definition moteur_init : moteur_state :=
  {| chunks := []; embeddings := None; metadata := [] |}.

Section Engine.
Context `{ST : SentenceTransformer} `{PR : PdfReader} `{PK : Pickle}.

(** The engine and the files on disk. *)
Record monde := Monde {
  moteur : moteur_state;
  fichiers : gmap string blob;
}.

(** A method: it may change the world, and returns or raises. What it
    assigned before it raised stays assigned. *)
Definition prog (A : Type) : Type := monde → monde * result A.

#[local] Instance prog_ret : MRet prog := λ A a w, (w, Ok a).
#[local] Instance prog_bind : MBind prog := λ A B f m w,
  match m w with
  | (w', Ok a) => f a w'
  | (w', Raise e) => (w', Raise e)
  end.

Definition lift {A} (r : result A) : prog A := λ w, (w, r).
Definition get_moteur : prog moteur_state := λ w, (w, Ok (moteur w)).
Definition set_moteur (f : moteur_state → moteur_state) : prog unit :=
  λ w, ({| moteur := f (moteur w); fichiers := fichiers w |}, Ok tt).
Definition write_file (path : string) (b : blob) : prog unit :=
  λ w, ({| moteur := moteur w; fichiers := <[path := b]> (fichiers w) |}, Ok tt).
Definition read_file (path : string) : prog blob :=
  λ w, (w, match fichiers w !! path with
           | Some b => Ok b
           | None => Raise (FileNotFoundError path)
           end).

(** [extraire_texte_pdf]: the pages numbered from 1. *)
Definition extraire_texte_pdf (chemin_pdf : string) : result (list Page) :=
  textes ← extract_pages chemin_pdf;
  Ok (imap (λ i texte, PageData (Z.of_nat i + 1) texte) textes).

(** The dictionary [indexer_pdf] dumps (app.py l.91-95). *)
Definition artifact_of (m : moteur_state) : artifact :=
  {| a_chunks := Some (chunks m);
     a_embeddings := Some (embeddings m);
     a_metadata := Some (metadata m);
     a_model_name := None |}.

(** The save step of [indexer_pdf] (app.py l.89-95). *)
Definition sauvegarder (fichier_index : string) : prog unit :=
  m ← get_moteur;
  write_file fichier_index (dumps (artifact_of m)).

(** [indexer_pdf] (app.py l.81-98) *)
Definition indexer_pdf (chemin_pdf fichier_index : string) : prog Z :=
  pages_texte ← lift (extraire_texte_pdf chemin_pdf);
  '(c, md) ← lift (decouper_en_chunks pages_texte taille_chunk_defaut overlap_defaut);
  set_moteur (λ m, {| chunks := c; embeddings := embeddings m; metadata := md |});;
  e ← lift (encode c);
  set_moteur (λ m, {| chunks := chunks m; embeddings := Some e; metadata := metadata m |});;
  sauvegarder fichier_index;;
  m ← get_moteur;
  mret (len (chunks m)).

(** [charger_index] (app.py l.100-108) *)
Definition charger_index (fichier_index : string) : prog unit :=
  f ← read_file fichier_index;
  data ← lift (loads f);
  c ← lift (match a_chunks data with
            | Some c => Ok c
            | None => Raise (KeyError "chunks")
            end);
  set_moteur (λ m, {| chunks := c; embeddings := embeddings m; metadata := metadata m |});;
  e ← lift (match a_embeddings data with
            | Some e => Ok e
            | None => Raise (KeyError "embeddings")
            end);
  set_moteur (λ m, {| chunks := chunks m; embeddings := e; metadata := metadata m |});;
  m ← get_moteur;
  let md := default (replicate (length (chunks m)) ∅) (a_metadata data) in
  set_moteur (λ m, {| chunks := chunks m; embeddings := embeddings m; metadata := md |}).

Definition INDEX_FILE : string := "index_pdf.pkl".

(** The module-level start of app.py (l.136-144): a fresh engine, and the
    index file loaded when it exists; a failed load is printed and dropped. *)
Definition demarrage (disque : gmap string blob) : monde :=
  let w := {| moteur := moteur_init; fichiers := disque |} in
  match disque !! INDEX_FILE with
  | Some _ => (charger_index INDEX_FILE w).1
  | None => w
  end.

(** [creer_index] of create_index.py (l.61-83): the same pipeline without an
    engine, and with the model's name in the dictionary. *)
Definition creer_index (chemin_pdf fichier_index : string) : prog unit :=
  pages_texte ← lift (extraire_texte_pdf chemin_pdf);
  '(c, md) ← lift (decouper_en_chunks pages_texte taille_chunk_defaut overlap_defaut);
  e ← lift (encode c);
  write_file fichier_index
    (dumps {| a_chunks := Some c;
              a_embeddings := Some (Some e);
              a_metadata := Some md;
              a_model_name := Some (default "unknown"%string (model_card_vars !! "model_name"%string)) |}).

(** ** Search *)

(** The value under ['page'] of a result: a page number or ['N/A']. *)
Inductive page_ref :=
| PageNum (n : Z)
| PageNA.

(** One dictionary of [resultats]; its key ['texte'] is [texte_chunk] here,
    apart from the ['texte'] of a page. *)
Record resultat := Resultat {
  rang : Z;
  score : float;
  texte_chunk : pystr;
  page : page_ref;
}.

Context `{AS : Np.Argsort}.

(** app.py l.117-119 *)
Definition similarities (emb : Np.ndarray) (question_emb : list float) : result (list float) :=
  d ← Np.dot emb question_emb;
  Ok (Np.divide d (Np.times (Np.norm_axis1 emb) (Np.norm question_emb))).

(** app.py l.121: [np.argsort(similarities)[-top_k:][::-1]] *)
Definition top_indices (sims : list float) (top_k : Z) : list nat :=
  reverse (slice_from (Np.argsort sims) (- top_k)).

(** app.py l.129:
    [self.metadata[idx].get('page', 'N/A') if idx < len(self.metadata) else 'N/A'] *)
Definition page_de (metadata : list meta) (idx : nat) : page_ref :=
  match metadata !! idx with
  | Some md => match md !! "page"%string with
               | Some n => PageNum n
               | None => PageNA
               end
  | None => PageNA
  end.

(** The body of the loop of app.py l.124-130. *)
Definition un_resultat (m : moteur_state) (sims : list float) (i idx : nat) : result resultat :=
  texte ← index (chunks m) idx;
  Ok {| rang := Z.of_nat i + 1;
        score := Np.item sims idx;
        texte_chunk := texte;
        page := page_de (metadata m) idx |}.

Fixpoint resultats_depuis (m : moteur_state) (sims : list float) (i : nat)
    (idxs : list nat) : result (list resultat) :=
  match idxs with
  | [] => Ok []
  | idx :: rest =>
      r ← un_resultat m sims i idx;
      rs ← resultats_depuis m sims (S i) rest;
      Ok (r :: rs)
  end.

(** [rechercher] (app.py l.110-132) *)
Definition rechercher (m : moteur_state) (question : pystr) (top_k : Z) : result (list resultat) :=
  match embeddings m with
  | None => Raise (ValueError "Aucun index chargé")
  | Some emb =>
      q ← encode [question];
      question_emb ← index q 0;
      sims ← similarities emb question_emb;
      resultats_depuis m sims 0 (top_indices sims top_k)
  end.

(** ** The /search endpoint (app.py l.512-522) *)

Inductive reponse :=
| Reponse (resultats : list resultat)
| HTTPException (status_code : Z) (detail : string + exn).

Definition search (m : moteur_state) (question : pystr) (top_k : Z) : reponse :=
  match embeddings m with
  | None => HTTPException 400 (inl "Aucun PDF indexé"%string)
  | Some _ =>
      match rechercher m question top_k with
      | Ok resultats => Reponse resultats
      | Raise e => HTTPException 500 (inr e)
      end
  end.

(** ** The /status endpoint (app.py l.475-481) *)

Record statut := Statut {
  indexed : bool;
  chunks_count : Z;
}.

Definition get_status (m : moteur_state) : statut :=
  {| indexed := match embeddings m with Some _ => true | None => false end;
     chunks_count := match chunks m with
                     | [] => 0
                     | _ => len (chunks m)
                     end |}.

(** ** The /upload endpoint (app.py l.483-510) *)

Inductive reponse_upload :=
| Indexe (message : string) (chunks_count : Z)
| UploadException (status_code : Z) (detail : string + exn).

(** [os.remove(path)] *)
Definition os_remove (path : string) : prog unit :=
  λ w, match fichiers w !! path with
       | Some _ => ({| moteur := moteur w; fichiers := delete path (fichiers w) |}, Ok tt)
       | None => (w, Raise (FileNotFoundError path))
       end.

(** The [try] block of [upload_pdf] (l.492-505); [content] is what
    [file.read()] returned. *)
Definition upload_essai (temp_path : string) (content : blob) : prog Z :=
  write_file temp_path content;;
  chunks_count ← indexer_pdf temp_path INDEX_FILE;
  os_remove temp_path;;
  mret chunks_count.

Definition upload_pdf (filename : string) (content : blob) (w : monde)
    : monde * reponse_upload :=
  if negb (endswith filename ".pdf")
  then (w, UploadException 400 (inl "Le fichier doit être un PDF"%string))
  else
    let temp_path := ("temp_" ++ filename)%string in
    match upload_essai temp_path content w with
    | (w', Ok chunks_count) => (w', Indexe "PDF indexé avec succès !" chunks_count)
    | (w', Raise e) =>
        (match fichiers w' !! temp_path with
         | Some _ => {| moteur := moteur w'; fichiers := delete temp_path (fichiers w') |}
         | None => w'
         end,
         UploadException 500 (inr e))
    end.

(** ** The script of create_index.py (l.101-116) *)

(** How the script ends: [sys.exit(code)], the end of the file, or an
    exception nothing catches. *)
Inductive issue :=
| SysExit (code : Z)
| Fin
| NonRattrapee (e : exn).

(** [argv] is [sys.argv]; [Path(pdf_file).exists()] looks the file up. *)
Definition main (argv : list string) (w : monde) : monde * issue :=
  if Nat.ltb (length argv) 2 then (w, SysExit 1)
  else
    match argv !! 1%nat with
    | None => (w, SysExit 1)
    | Some pdf_file =>
        match fichiers w !! pdf_file with
        | None => (w, SysExit 1)
        | Some _ =>
            match creer_index pdf_file "index_pdf.pkl" w with
            | (w', Ok _) => (w', Fin)
            | (w', Raise e) => (w', NonRattrapee e)
            end
        end
    end.

End Engine.

(* ===================================================================== *)
(** * The vocabulary of the statements                                   *)
(* ===================================================================== *)

(** ** The chunker *)

(** The texts of the windows of a page that pass the length test. *)
Definition fenetres_gardees (mots : list pystr) (mots_par_chunk : Z)
    (debuts : list Z) : list pystr :=
  filter (λ chunk, 50 < len (strip chunk))
    ((λ i, join (str " ") (slice mots i (i + mots_par_chunk))) <$> debuts).

(** [c] is a run of consecutive words of the page, joined by single spaces. *)
Definition est_fenetre_de (p : Page) (c : pystr) : Prop :=
  ∃ i j, c = join (str " ") (slice (split (texte p)) i j).

(** The chunks and the metadata, page after page: each page contributes some
    of its windows, and as many records with its number. *)
Inductive attribue : list Page → list pystr → list meta → Prop :=
| attribue_nil : attribue [] [] []
| attribue_page p pages gardes cs ms :
    Forall (est_fenetre_de p) gardes →
    attribue pages cs ms →
    attribue (p :: pages) (gardes ++ cs)
      (replicate (length gardes) {[ "page"%string := numero_page p ]} ++ ms).

(** The step of the inner [range] for a page. *)
Definition pas (taille_chunk overlap : Z) (p : Page) : result Z :=
  '(mots_par_chunk, overlap_mots) ←
    tailles_en_mots taille_chunk overlap (texte p) (split (texte p));
  Ok (mots_par_chunk - overlap_mots).

(** The characters of the words, one more for each word. *)
Definition poids (mots : list pystr) : nat :=
  sum_list_with (λ mot, S (length mot)) mots.

(** The number of words of a document. *)
Definition nombre_de_mots (pages : list Page) : nat :=
  sum_list_with (λ p, length (split (texte p))) pages.

(** A word as [split] gives them: not empty, and free of whitespace. *)
Definition est_un_mot (mot : pystr) : Prop :=
  mot ≠ [] ∧ Forall (λ c, isspace c = false) mot.

(** ** numpy's order *)

(** [Np.lt] on the IEEE 754 data behind two floats. *)
Definition sf_lt (x y : spec_float) : bool :=
  SFltb x y || (negb (SFeqb y y) && SFeqb x x).

(** Where a float stands in numpy's order: the class, then the exponent, then
    the mantissa, the last two reversed for negative numbers. *)
Definition sf_key (x : spec_float) : Z * Z * Z :=
  match x with
  | S754_nan => (3, 0, 0)
  | S754_infinity false => (2, 0, 0)
  | S754_finite false m e => (1, e, Z.pos m)
  | S754_zero _ => (0, 0, 0)
  | S754_finite true m e => (-1, - e, Z.neg m)
  | S754_infinity true => (-2, 0, 0)
  end.

Definition lex_lt (p q : Z * Z * Z) : Prop :=
  let '(a, b, c) := p in
  let '(a', b', c') := q in
  a < a' ∨ (a = a' ∧ (b < b' ∨ (b = b' ∧ c < c'))).

(** In the list of placed indices, last first: [a] stands before [b] when its
    value is not less, and on a tie when its index is the higher one. *)
Definition placed_before (v : list float) (a b : nat) : Prop :=
  Np.lt (Np.item v a) (Np.item v b) = false ∧
  (Np.lt (Np.item v b) (Np.item v a) = false → (b < a)%nat).

(** ** Search *)

(** The dictionary [rechercher] builds for the chunk [idx] at position [i]. *)
Definition resultat_attendu (m : moteur_state) (sims : list float) (i idx : nat) : resultat :=
  {| rang := Z.of_nat i + 1;
     score := Np.item sims idx;
     texte_chunk := nth idx (chunks m) [];
     page := page_de (metadata m) idx |}.

(* ===================================================================== *)
(** * Concrete collaborators and inputs                                  *)
(* ===================================================================== *)

(** A pickle that stores the dictionary itself; [None] is a file that is not
    a pickle. *)
Definition pickle_direct : Pickle := {|
  blob := option artifact;
  dumps := Some;
  loads := λ b, match b with
                | Some a => Ok a
                | None => Raise (ExternalError "UnpicklingError")
                end;
  loads_dumps := λ a, eq_refl;
|}.

Definition paris : pystr := str "Paris est la capitale de la France.".

Definition verset : pystr :=
  str "Au commencement etait le Verbe, et le Verbe etait aupres de Dieu, et le Verbe etait Dieu.".

Definition psaume : pystr :=
  str "Le Seigneur est mon berger, je ne manque de rien; sur des pres d'herbe fraiche il me fait reposer.".

(** A PDF of one page. *)
Definition lecteur_verset : PdfReader := {|
  extract_pages := λ _, Ok [verset];
|}.

(** A PDF that cannot be read. *)
Definition lecteur_illisible : PdfReader := {|
  extract_pages := λ _, Raise (ExternalError "PdfReadError");
|}.

(** Two models of the same dimension. *)
Definition modele_a : SentenceTransformer := {|
  model_name := "modele-a";
  model_card_vars := {[ "model_name"%string := "modele-a"%string ]};
  encode := λ textes, Ok ((λ _, [1; 0]%float) <$> textes);
|}.

Definition modele_b : SentenceTransformer := {|
  model_name := "modele-b";
  model_card_vars := {[ "model_name"%string := "modele-b"%string ]};
  encode := λ textes, Ok ((λ _, [0; 1]%float) <$> textes);
|}.

(** A model that fails on any text of more than 50 characters, as every
    chunk is, and embeds shorter ones. *)
Definition modele_en_panne : SentenceTransformer := {|
  model_name := "modele-a";
  model_card_vars := ∅;
  encode := λ textes,
    if forallb (λ t, Nat.leb (length t) 50) textes
    then Ok ((λ _, [1; 0]%float) <$> textes)
    else Raise (ExternalError "CUDA out of memory");
|}.


(** An engine with an index of two chunks. *)
Definition moteur_charge : moteur_state := {|
  chunks := [verset; psaume];
  embeddings := Some [[1; 0]; [0; 1]]%float;
  metadata := [{[ "page"%string := 1 ]}; {[ "page"%string := 2 ]}];
|}.

Definition genese : pystr :=
  str "Au commencement, Dieu crea le ciel et la terre. La terre etait informe et vide.".

(** An engine whose first and third chunks have the same embedding. *)
Definition moteur_ex_aequo : moteur_state := {|
  chunks := [verset; psaume; genese];
  embeddings := Some [[1; 0]; [0; 1]; [1; 0]]%float;
  metadata := [{[ "page"%string := 1 ]}; {[ "page"%string := 2 ]};
               {[ "page"%string := 3 ]}];
|}.

(** The five similarities of the scenario of the specification. *)
Definition sims_scenario : list float := [0.9; 0.4; 0.9; 0.1; 0.7]%float.

(* ===================================================================== *)
(** * numpy's order on floats and the insertion sort                     *)
(* ===================================================================== *)

Section FloatOrder.

Lemma lt_sf a b : Np.lt a b = sf_lt (Prim2SF a) (Prim2SF b).
Proof. unfold Np.lt, sf_lt. by rewrite FloatAxioms.ltb_spec, !FloatAxioms.eqb_spec. Qed.

Lemma sf_lt_key x y : sf_lt x y = true ↔ lex_lt (sf_key x) (sf_key y).
Proof.
  unfold sf_lt, SFltb, SFeqb, SFcompare, lex_lt, sf_key.
  destruct x as [[]|[]| |[] m e], y as [[]|[]| |[] m' e'];
    repeat match goal with
    | |- context [PosDef.Pos.compare_cont Eq ?a ?b] =>
        change (PosDef.Pos.compare_cont Eq a b) with (Pos.compare a b)
    end;
    rewrite ?Z.compare_refl, ?Pos.compare_refl;
    repeat match goal with
    | |- context [Z.compare ?a ?b] => destruct (Z.compare_spec a b)
    | |- context [Pos.compare ?a ?b] => destruct (Pos.compare_spec a b)
    end;
    cbn;
    solve [ split; [ intros; lia | intros; first [ reflexivity | lia ] ]
          | split; [ discriminate | lia ] ].
Qed.

Lemma sf_lt_false x y : sf_lt x y = false ↔ ¬ lex_lt (sf_key x) (sf_key y).
Proof. rewrite <- sf_lt_key. destruct (sf_lt x y); intuition congruence. Qed.

Ltac by_keys :=
  rewrite ?lt_sf, ?sf_lt_false, ?sf_lt_key;
  repeat match goal with
  | |- context [sf_key ?x] =>
      let a := fresh "a" in let b := fresh "b" in let c := fresh "c" in
      destruct (sf_key x) as [[a b] c]
  end;
  cbn; lia.

Lemma lt_irrefl a : Np.lt a a = false.
Proof. by_keys. Qed.

Lemma lt_asym a b : Np.lt a b = true → Np.lt b a = false.
Proof. by_keys. Qed.

Lemma lt_trans a b c : Np.lt a b = true → Np.lt b c = true → Np.lt a c = true.
Proof. by_keys. Qed.

(** "Not less" is transitive: the order is a strict weak order. *)
Lemma ge_trans a b c : Np.lt a b = false → Np.lt b c = false → Np.lt a c = false.
Proof. by_keys. Qed.

End FloatOrder.

Section InsertionSort.
Variable v : list float.

Lemma insert_left_perm i s : Np.insert_left v i s ≡ₚ i :: s.
Proof.
  induction s as [|k rest IH]; simpl; [done|].
  destruct (Np.lt _ _); [|done].
  rewrite IH. apply Permutation_swap.
Qed.

Lemma insert_left_sorted i s :
  Forall (λ k, (k < i)%nat) s →
  StronglySorted (placed_before v) s →
  StronglySorted (placed_before v) (Np.insert_left v i s).
Proof.
  induction s as [|k rest IH]; simpl; intros Hlt Hs.
  - repeat constructor.
  - apply Forall_cons in Hlt as [Hk Hrest].
    apply StronglySorted_cons in Hs as [Hall Hs].
    destruct (Np.lt (Np.item v i) (Np.item v k)) eqn:Hik.
    + apply StronglySorted_cons. split; [|by apply IH].
      rewrite insert_left_perm. constructor; [|done].
      split; [by apply lt_asym|]. congruence.
    + apply StronglySorted_cons. split; [|by apply StronglySorted_cons].
      constructor; [by split|].
      rewrite Forall_forall in Hall, Hrest |- *. intros x Hx.
      destruct (Hall x Hx) as [Hkx _]. split; [by eapply ge_trans|].
      intros _. by apply Hrest.
Qed.

Lemma foldl_insert_left_perm l acc :
  foldl (λ sorted i, Np.insert_left v i sorted) acc l ≡ₚ l ++ acc.
Proof.
  revert acc. induction l as [|i l IH]; intros acc; simpl; [done|].
  rewrite IH, insert_left_perm. by rewrite Permutation_middle.
Qed.

Lemma foldl_insert_left_sorted n len acc :
  Forall (λ k, (k < n)%nat) acc →
  StronglySorted (placed_before v) acc →
  StronglySorted (placed_before v)
    (foldl (λ sorted i, Np.insert_left v i sorted) acc (seq n len)).
Proof.
  revert n acc. induction len as [|len IH]; intros n acc Hlt Hs; simpl; [done|].
  apply IH.
  - rewrite insert_left_perm. constructor; [lia|].
    eapply Forall_impl; [done|]. simpl. lia.
  - by apply insert_left_sorted.
Qed.

Lemma StronglySorted_reverse {A} (R : relation A) l :
  StronglySorted R l → StronglySorted (flip R) (reverse l).
Proof.
  induction 1 as [|x l Hs IH Hall]; [constructor|].
  rewrite reverse_cons. apply StronglySorted_app. split_and!.
  - intros x1 x2 Hx1 ->%list_elem_of_singleton. unfold flip.
    rewrite Forall_forall in Hall. apply Hall. by apply elem_of_reverse.
  - done.
  - repeat constructor.
Qed.

Lemma StronglySorted_weaken {A} (R R' : relation A) l :
  (∀ x y, R x y → R' x y) → StronglySorted R l → StronglySorted R' l.
Proof.
  intros HR. induction 1 as [|x l Hs IH Hall]; constructor; [done|].
  eapply Forall_impl; [done|]. auto.
Qed.

Lemma argsort_insertion_perm : Np.argsort_insertion v ≡ₚ seq 0 (length v).
Proof.
  unfold Np.argsort_insertion.
  by rewrite reverse_Permutation, foldl_insert_left_perm, app_nil_r.
Qed.

(** The insertion sort is stable: equal values keep the order of their
    indices. *)
Lemma argsort_insertion_stable :
  StronglySorted (flip (placed_before v)) (Np.argsort_insertion v).
Proof.
  apply StronglySorted_reverse, foldl_insert_left_sorted; constructor.
Qed.

Lemma argsort_insertion_sorted :
  StronglySorted (λ i j, Np.lt (Np.item v j) (Np.item v i) = false)
    (Np.argsort_insertion v).
Proof.
  eapply StronglySorted_weaken; [|apply argsort_insertion_stable].
  by intros i j [? _].
Qed.

End InsertionSort.

(** numpy's scalar small-array sort meets the contract of [np.argsort]. *)
Definition insertion_argsort : Np.Argsort := {|
  Np.argsort := Np.argsort_insertion;
  Np.argsort_perm := argsort_insertion_perm;
  Np.argsort_sorted := argsort_insertion_sorted;
|}.

(* ===================================================================== *)
(** * The chunker: what one page and what all pages contribute           *)
(* ===================================================================== *)

Section Chunker.

Lemma bind_ok {A B} (m : result A) (f : A → result B) b :
  m ≫= f = Ok b ↔ ∃ a, m = Ok a ∧ f a = Ok b.
Proof.
  destruct m as [a|e]; simpl; split.
  - by eauto.
  - by intros (? & [= ->] & ?).
  - done.
  - by intros (? & [=] & ?).
Qed.

Lemma foldl_ajouter_fenetre page_num mots mots_par_chunk debuts acc :
  foldl (ajouter_fenetre page_num mots mots_par_chunk) acc debuts =
  let gardes := fenetres_gardees mots mots_par_chunk debuts in
  (acc.1 ++ gardes,
   acc.2 ++ replicate (length gardes) {[ "page"%string := page_num ]}).
Proof.
  revert acc. unfold fenetres_gardees.
  induction debuts as [|i debuts IH]; intros [cs ms]; simpl.
  { by rewrite !app_nil_r. }
  rewrite IH. unfold ajouter_fenetre. simpl. rewrite filter_cons.
  destruct (Z.ltb_spec 50 (len (strip (join (str " ") (slice mots i (i + mots_par_chunk))))));
    case_decide; try lia; simpl; [|done].
  by rewrite <- !app_assoc.
Qed.

Lemma fenetres_gardees_longues mots mots_par_chunk debuts :
  Forall (λ c, 50 < len (strip c)) (fenetres_gardees mots mots_par_chunk debuts).
Proof.
  unfold fenetres_gardees. apply Forall_forall. by intros c [? _]%list_elem_of_filter.
Qed.

Lemma fenetres_gardees_fenetres p mots_par_chunk debuts :
  Forall (est_fenetre_de p)
    (fenetres_gardees (split (texte p)) mots_par_chunk debuts).
Proof.
  unfold fenetres_gardees. apply Forall_forall.
  intros c [_ Hc]%list_elem_of_filter.
  apply list_elem_of_fmap in Hc as (i & -> & _). by eexists _, _.
Qed.

(** What a page adds to the accumulators when its body returns. *)
Lemma decouper_page_ok taille_chunk overlap acc p acc' :
  decouper_page taille_chunk overlap acc p = Ok acc' →
  ∃ gardes,
    acc' = (acc.1 ++ gardes,
            acc.2 ++ replicate (length gardes) {[ "page"%string := numero_page p ]}) ∧
    Forall (est_fenetre_de p) gardes ∧
    Forall (λ c, 50 < len (strip c)) gardes.
Proof.
  unfold decouper_page. destruct (split (texte p)) as [|mot mots] eqn:Hmots.
  { intros [= <-]. exists []. simpl. rewrite !app_nil_r. by destruct acc. }
  rewrite <- Hmots.
  intros ([mpc ov] & _ & (debuts & _ & [= <-])%bind_ok)%bind_ok.
  rewrite foldl_ajouter_fenetre. eexists. split; [done|].
  split; [apply fenetres_gardees_fenetres | apply fenetres_gardees_longues].
Qed.

Lemma for_each_decouper_page taille_chunk overlap pages acc cs ms :
  for_each (decouper_page taille_chunk overlap) pages acc = Ok (cs, ms) →
  ∃ cs' ms',
    cs = acc.1 ++ cs' ∧ ms = acc.2 ++ ms' ∧
    attribue pages cs' ms' ∧ Forall (λ c, 50 < len (strip c)) cs'.
Proof.
  revert acc. induction pages as [|p pages IH]; intros acc; simpl.
  { intros [= ->]. exists [], []. simpl. rewrite !app_nil_r.
    split_and!; [done|done|constructor|constructor]. }
  intros (acc1 & (gardes & -> & Hf & Hl)%decouper_page_ok & Hrest)%bind_ok.
  apply IH in Hrest as (cs' & ms' & -> & -> & Hattr & Hlong). simpl.
  exists (gardes ++ cs'),
    (replicate (length gardes) {[ "page"%string := numero_page p ]} ++ ms').
  rewrite <- !app_assoc.
  split_and!; [done|done| by constructor | by apply Forall_app].
Qed.

Lemma attribue_length pages cs ms : attribue pages cs ms → length cs = length ms.
Proof.
  induction 1; [done|].
  rewrite !length_app, length_replicate. lia.
Qed.

Lemma attribue_lookup pages cs ms i c :
  attribue pages cs ms → cs !! i = Some c →
  ∃ p, p ∈ pages ∧ est_fenetre_de p c ∧
       ms !! i = Some {[ "page"%string := numero_page p ]}.
Proof.
  intros H. revert i. induction H as [|p pages gardes cs ms Hg _ IH]; intros i.
  { by rewrite lookup_nil. }
  destruct (decide (i < length gardes)%nat) as [Hi|Hi].
  - rewrite lookup_app_l by done. intros Hc. exists p. split_and!.
    + left.
    + rewrite Forall_forall in Hg. apply Hg. by eapply list_elem_of_lookup_2.
    + rewrite lookup_app_l by (by rewrite length_replicate).
      by apply lookup_replicate_2.
  - rewrite lookup_app_r by lia. intros (q & Hq & Hw & Hm)%IH.
    exists q. split_and!; [by right|done|].
    rewrite lookup_app_r by (rewrite length_replicate; lia).
    by rewrite length_replicate.
Qed.

(** ** A window is no longer than the text of its page *)

Lemma join_length mots :
  mots ≠ [] → (length (join (str " ") mots) + 1 = poids mots)%nat.
Proof.
  induction mots as [|mot [|mot' mots] IH]; intros Hne; [done|simpl; lia|].
  change (join (str " ") (mot :: mot' :: mots))
    with (mot ++ str " " ++ join (str " ") (mot' :: mots)).
  rewrite !length_app. change (length (str " ")) with 1%nat.
  specialize (IH ltac:(done)). unfold poids in *. simpl in *. lia.
Qed.

Lemma poids_sublist (l1 l2 : list pystr) :
  l1 `sublist_of` l2 → (poids l1 ≤ poids l2)%nat.
Proof. induction 1; unfold poids in *; simpl; lia. Qed.

Lemma slice_sublist {A} (l : list A) i j : slice l i j `sublist_of` l.
Proof.
  unfold slice. etrans; [apply sublist_take|apply sublist_drop].
Qed.

Lemma split_from_poids cur s :
  (poids (split_from cur s) ≤ length cur + length s + 1)%nat.
Proof.
  revert cur. induction s as [|c s IH]; intros cur; simpl.
  - destruct cur; unfold poids; simpl; [lia|].
    rewrite length_reverse. simpl. lia.
  - destruct (isspace c).
    + destruct cur as [|c' cur].
      * specialize (IH []). simpl in IH. lia.
      * specialize (IH []). unfold poids in *. simpl in *.
        rewrite length_reverse. simpl. lia.
    + specialize (IH (c :: cur)). simpl in IH. lia.
Qed.

Lemma lstrip_length s : (length (lstrip s) ≤ length s)%nat.
Proof.
  induction s as [|c s IH]; simpl; [done|].
  destruct (isspace c); simpl; lia.
Qed.

Lemma strip_length s : (length (strip s) ≤ length s)%nat.
Proof.
  unfold strip. rewrite length_reverse.
  etrans; [apply lstrip_length|]. rewrite length_reverse. apply lstrip_length.
Qed.

Lemma fenetre_length p c :
  est_fenetre_de p c → len (strip c) ≤ len (texte p).
Proof.
  intros (i & j & ->). unfold len.
  pose proof (poids_sublist _ _ (slice_sublist (split (texte p)) i j)) as Hw.
  pose proof (split_from_poids [] (texte p)) as Ht. fold (split (texte p)) in Ht.
  simpl in Ht.
  destruct (slice (split (texte p)) i j) as [|mot mots].
  { change (strip (join (str " ") [])) with (@nil N). simpl. lia. }
  pose proof (strip_length (join (str " ") (mot :: mots))) as Hs.
  pose proof (join_length (mot :: mots) ltac:(done)). lia.
Qed.

(** Pages of at most 50 characters contribute nothing. *)
Lemma attribue_pages_courtes pages cs ms :
  attribue pages cs ms →
  Forall (λ p, len (texte p) ≤ 50) pages →
  Forall (λ c, 50 < len (strip c)) cs →
  cs = [].
Proof.
  induction 1 as [|p pages gardes cs ms Hg _ IH]; [done|].
  intros [Hp Hpages]%Forall_cons [Hlg Hlcs]%Forall_app.
  rewrite (IH Hpages Hlcs), app_nil_r.
  destruct gardes as [|c gardes]; [done|].
  apply Forall_cons in Hg as [Hc%fenetre_length _].
  apply Forall_cons in Hlg as [Hlong _]. lia.
Qed.

End Chunker.

Section Range.

Lemma range_zero_step start stop :
  range start stop 0 = Raise (ValueError "range() arg 3 must not be zero").
Proof. done. Qed.

(** A negative step from 0 towards a length yields nothing. *)
Lemma range_negative_step stop step :
  0 ≤ stop → step < 0 → range 0 stop step = Ok [].
Proof.
  intros Hstop Hstep. unfold range.
  destruct (Z.eqb_spec step 0); [lia|].
  destruct (Z.ltb_spec 0 step); [lia|].
  replace (Z.to_nat _) with 0%nat; [done|].
  assert ((0 - stop - step - 1) / - step < 1); [|lia].
  apply Z.div_lt_upper_bound; lia.
Qed.

(** A positive step from 0: the multiples of the step below the stop. *)
Lemma range_positive_step stop step :
  0 < stop → 0 < step →
  ∃ debuts,
    range 0 stop step = Ok debuts ∧
    (0 < length debuts)%nat ∧ len debuts ≤ stop ∧
    ∀ (k : nat) i, debuts !! k = Some i → i = Z.of_nat k * step ∧ 0 ≤ i < stop.
Proof.
  intros Hstop Hstep. unfold range.
  destruct (Z.eqb_spec step 0); [lia|].
  destruct (Z.ltb_spec 0 step); [|lia].
  set (count := (stop - 0 + step - 1) / step).
  assert (1 ≤ count) as Hlow.
  { apply Z.div_le_lower_bound; lia. }
  assert (count ≤ stop) as Hhigh.
  { assert (count < stop + 1); [|lia]. apply Z.div_lt_upper_bound; nia. }
  assert (count * step ≤ stop - 0 + step - 1) as Hmul.
  { rewrite Z.mul_comm. apply Z.mul_div_le. lia. }
  eexists. split; [done|]. rewrite length_fmap, length_seq. split_and!.
  - lia.
  - unfold len. rewrite length_fmap, length_seq. lia.
  - intros k i Hk. apply list_lookup_fmap_Some in Hk as (k' & -> & Hk').
    apply lookup_seq in Hk' as [-> Hlt]. simpl. split; [lia|]. nia.
Qed.

End Range.

(* ===================================================================== *)
(** * The index store: what a run and a load leave behind                *)
(* ===================================================================== *)

Section Store.
Context `{ST : SentenceTransformer} `{PR : PdfReader} `{PK : Pickle}.

(** [charger_index], outcome by outcome. *)
Lemma charger_index_run fichier_index w :
  charger_index fichier_index w =
  match fichiers w !! fichier_index with
  | None => (w, Raise (FileNotFoundError fichier_index))
  | Some f =>
      match loads f with
      | Raise e => (w, Raise e)
      | Ok data =>
          match a_chunks data with
          | None => (w, Raise (KeyError "chunks"))
          | Some c =>
              match a_embeddings data with
              | None =>
                  (Monde (Moteur c (embeddings (moteur w)) (metadata (moteur w)))
                     (fichiers w),
                   Raise (KeyError "embeddings"))
              | Some e =>
                  (Monde (Moteur c e (default (replicate (length c) ∅) (a_metadata data)))
                     (fichiers w),
                   Ok ())
              end
          end
      end
  end.
Proof.
  unfold charger_index, mbind, prog_bind, read_file, lift. simpl.
  destruct (fichiers w !! fichier_index) as [f|]; [|done].
  destruct (loads f) as [data|e]; [|done].
  destruct (a_chunks data) as [c|]; [|done]. simpl.
  destruct (a_embeddings data) as [e|]; done.
Qed.

(** [indexer_pdf], outcome by outcome. *)
Lemma indexer_pdf_run chemin_pdf fichier_index w :
  indexer_pdf chemin_pdf fichier_index w =
  match extraire_texte_pdf chemin_pdf with
  | Raise e => (w, Raise e)
  | Ok pages_texte =>
      match decouper_en_chunks pages_texte taille_chunk_defaut overlap_defaut with
      | Raise e => (w, Raise e)
      | Ok (c, md) =>
          match encode c with
          | Raise e =>
              (Monde (Moteur c (embeddings (moteur w)) md) (fichiers w), Raise e)
          | Ok e =>
              let m := Moteur c (Some e) md in
              (Monde m (<[fichier_index := dumps (artifact_of m)]> (fichiers w)),
               Ok (len c))
          end
      end
  end.
Proof.
  unfold indexer_pdf, mbind, prog_bind, lift. simpl.
  destruct (extraire_texte_pdf chemin_pdf) as [pages|e]; [|done].
  destruct (decouper_en_chunks _ _ _) as [[c md]|e]; [|done]. simpl.
  destruct (encode c) as [e|e]; done.
Qed.

(** [creer_index], outcome by outcome. *)
Lemma creer_index_run chemin_pdf fichier_index w :
  creer_index chemin_pdf fichier_index w =
  match extraire_texte_pdf chemin_pdf with
  | Raise e => (w, Raise e)
  | Ok pages_texte =>
      match decouper_en_chunks pages_texte taille_chunk_defaut overlap_defaut with
      | Raise e => (w, Raise e)
      | Ok (c, md) =>
          match encode c with
          | Raise e => (w, Raise e)
          | Ok e =>
              (Monde (moteur w)
                 (<[fichier_index :=
                    dumps {| a_chunks := Some c;
                             a_embeddings := Some (Some e);
                             a_metadata := Some md;
                             a_model_name :=
                               Some (default "unknown"%string
                                       (model_card_vars !! "model_name"%string)) |}]>
                    (fichiers w)),
               Ok ())
          end
      end
  end.
Proof.
  unfold creer_index, mbind, prog_bind, lift. simpl.
  destruct (extraire_texte_pdf chemin_pdf) as [pages|e]; [|done].
  destruct (decouper_en_chunks _ _ _) as [[c md]|e]; [|done]. simpl.
  destruct (encode c) as [e|e]; done.
Qed.

(** Saving writes one file and leaves the engine alone. *)
Lemma sauvegarder_run fichier_index w :
  sauvegarder fichier_index w =
  (Monde (moteur w)
     (<[fichier_index := dumps (artifact_of (moteur w))]> (fichiers w)),
   Ok ()).
Proof. done. Qed.

End Store.

(* ===================================================================== *)
(** * Search                                                             *)
(* ===================================================================== *)

Section Search.
Context `{ST : SentenceTransformer} `{AS : Np.Argsort}.

Lemma StronglySorted_lookup {A} (R : relation A) l (i j : nat) x y :
  StronglySorted R l → (i < j)%nat → l !! i = Some x → l !! j = Some y → R x y.
Proof.
  intros Hs. revert i j. induction Hs as [|z l Hs IH Hall]; intros i j Hij Hi Hj.
  { by rewrite lookup_nil in Hi. }
  destruct j as [|j]; [lia|]. simpl in Hj. destruct i as [|i]; simpl in Hi.
  - injection Hi as ->. rewrite Forall_forall in Hall.
    apply Hall. by eapply list_elem_of_lookup_2.
  - eapply (IH i j); [lia|done..].
Qed.

Lemma StronglySorted_drop {A} (R : relation A) l n :
  StronglySorted R l → StronglySorted R (drop n l).
Proof.
  intros Hs. rewrite <- (take_drop n l) in Hs.
  by apply StronglySorted_app in Hs as (_ & _ & ?).
Qed.

(** ** The similarities *)

Lemma similarities_ok emb qe :
  Forall (λ row, length row = length qe) emb →
  ∃ sims, similarities emb qe = Ok sims ∧ length sims = length emb.
Proof.
  intros Hdim. unfold similarities, Np.dot.
  replace (forallb _ emb) with true.
  - simpl. eexists. split; [done|].
    unfold Np.divide, Np.times, Np.norm_axis1.
    rewrite length_zip_with, !length_fmap. lia.
  - symmetry. apply forallb_forall. intros row Hrow%list_elem_of_In.
    rewrite Forall_forall in Hdim. apply Nat.eqb_eq. by apply Hdim.
Qed.

(** Each similarity is the quotient the source writes. *)
Lemma similarities_lookup emb qe sims i row :
  similarities emb qe = Ok sims → emb !! i = Some row →
  sims !! i = Some (Np.dot1 row qe / (Np.norm row * Np.norm qe))%float.
Proof.
  unfold similarities. intros (d & Hd & [= <-])%bind_ok Hrow.
  unfold Np.dot in Hd. destruct (forallb _ emb); [|done]. injection Hd as <-.
  unfold Np.divide, Np.times, Np.norm_axis1.
  rewrite lookup_zip_with, !list_lookup_fmap, Hrow. done.
Qed.

(** ** The selected indices *)

Lemma top_indices_unfold sims top_k :
  top_indices sims top_k =
  reverse (drop (Z.to_nat (clamp_index (len sims) (- top_k))) (Np.argsort sims)).
Proof.
  unfold top_indices, slice_from, len.
  by rewrite (Permutation_length (Np.argsort_perm sims)), length_seq.
Qed.

Lemma top_indices_length sims top_k :
  len (top_indices sims top_k) = len sims - clamp_index (len sims) (- top_k).
Proof.
  rewrite top_indices_unfold. unfold len at 1.
  rewrite length_reverse, length_drop.
  rewrite (Permutation_length (Np.argsort_perm sims)), length_seq.
  unfold clamp_index, len. destruct (Z.ltb_spec (- top_k) 0); lia.
Qed.

Lemma top_indices_length_pos sims top_k :
  1 ≤ top_k → len (top_indices sims top_k) = Z.min top_k (len sims).
Proof.
  intros Hk. rewrite top_indices_length. unfold clamp_index, len.
  destruct (Z.ltb_spec (- top_k) 0); lia.
Qed.

Lemma top_indices_length_zero sims :
  len (top_indices sims 0) = len sims.
Proof. rewrite top_indices_length. unfold clamp_index, len. simpl. lia. Qed.

Lemma top_indices_zero_perm sims :
  top_indices sims 0 ≡ₚ seq 0 (length sims).
Proof.
  rewrite top_indices_unfold. unfold clamp_index, len. simpl.
  replace (Z.to_nat (Z.min 0 _)) with 0%nat by lia.
  by rewrite drop_0, reverse_Permutation, Np.argsort_perm.
Qed.

Lemma top_indices_sublist sims top_k :
  top_indices sims top_k ⊆+ seq 0 (length sims).
Proof.
  rewrite top_indices_unfold, reverse_Permutation, <- (Np.argsort_perm sims).
  apply sublist_submseteq, sublist_drop.
Qed.

Lemma top_indices_NoDup sims top_k : NoDup (top_indices sims top_k).
Proof.
  rewrite top_indices_unfold, reverse_Permutation.
  apply (sublist_NoDup _ (Np.argsort sims)); [|apply sublist_drop].
  rewrite (Np.argsort_perm sims). apply NoDup_seq.
Qed.

Lemma top_indices_bound sims top_k idx :
  idx ∈ top_indices sims top_k → (idx < length sims)%nat.
Proof.
  intros Hin. eapply elem_of_submseteq in Hin; [|apply top_indices_sublist].
  apply elem_of_seq in Hin. lia.
Qed.

(** No selected index has a value less than one selected after it. *)
Lemma top_indices_sorted sims top_k :
  StronglySorted (λ i j, Np.lt (Np.item sims i) (Np.item sims j) = false)
    (top_indices sims top_k).
Proof.
  rewrite top_indices_unfold.
  apply (StronglySorted_reverse (λ i j, Np.lt (Np.item sims j) (Np.item sims i) = false)).
  apply StronglySorted_drop, Np.argsort_sorted.
Qed.

(** No selected index has a value less than an index left out. *)
Lemma top_indices_best sims top_k idx out :
  idx ∈ top_indices sims top_k → (out < length sims)%nat →
  out ∉ top_indices sims top_k →
  Np.lt (Np.item sims idx) (Np.item sims out) = false.
Proof.
  rewrite top_indices_unfold. set (d := Z.to_nat _).
  rewrite !elem_of_reverse. intros Hidx Hout Hnot.
  pose proof (Np.argsort_sorted sims) as Hs.
  rewrite <- (take_drop d (Np.argsort sims)) in Hs.
  apply StronglySorted_app in Hs as (Hcross & _ & _).
  apply (Hcross out idx); [|done].
  assert (out ∈ Np.argsort sims) as Hin.
  { rewrite (Np.argsort_perm sims). apply elem_of_seq. lia. }
  rewrite <- (take_drop d (Np.argsort sims)) in Hin.
  apply elem_of_app in Hin as [?|?]; done.
Qed.

(** ** The result list *)

Lemma un_resultat_ok m sims i idx :
  (idx < length (chunks m))%nat →
  un_resultat m sims i idx = Ok (resultat_attendu m sims i idx).
Proof.
  intros Hidx. unfold un_resultat, index, resultat_attendu.
  destruct (chunks m !! idx) as [t|] eqn:Ht.
  - simpl. by rewrite (nth_lookup_Some _ _ _ _ Ht).
  - apply lookup_ge_None in Ht. lia.
Qed.

Lemma resultats_depuis_ok m sims i idxs :
  Forall (λ idx, (idx < length (chunks m))%nat) idxs →
  resultats_depuis m sims i idxs =
  Ok (imap (λ k idx, resultat_attendu m sims (i + k) idx) idxs).
Proof.
  intros Hall. revert i. induction Hall as [|idx idxs Hidx _ IH]; intros i; simpl.
  { done. }
  rewrite un_resultat_ok by done. simpl. rewrite (IH (S i)). simpl.
  rewrite Nat.add_0_r. do 2 f_equal. apply imap_ext. intros k x _. simpl.
  by replace (i + S k)%nat with (S i + k)%nat by lia.
Qed.

(** [rechercher] on a loaded index whose arrays have matching shapes. *)
Lemma rechercher_run m emb question qe qs top_k :
  embeddings m = Some emb →
  encode [question] = Ok (qe :: qs) →
  Forall (λ row, length row = length qe) emb →
  length (chunks m) = length emb →
  ∃ sims,
    similarities emb qe = Ok sims ∧ length sims = length emb ∧
    rechercher m question top_k =
      Ok (imap (resultat_attendu m sims) (top_indices sims top_k)).
Proof.
  intros Hemb Hq Hdim Hlen.
  destruct (similarities_ok emb qe Hdim) as (sims & Hsims & Hn).
  exists sims. split_and!; [done..|].
  unfold rechercher. rewrite Hemb, Hq. simpl. rewrite Hsims. simpl.
  rewrite resultats_depuis_ok; [done|].
  apply Forall_forall. intros idx Hidx%top_indices_bound. lia.
Qed.

End Search.

(* ===================================================================== *)
(** * IEEE 754 facts the similarity relies on                            *)
(* ===================================================================== *)

Section FloatClass.

Ltac sf_compare :=
  repeat match goal with
  | |- context [PosDef.Pos.compare_cont Eq ?a ?b] =>
      change (PosDef.Pos.compare_cont Eq a b) with (Pos.compare a b)
  end;
  rewrite ?Z.compare_refl, ?Pos.compare_refl;
  repeat match goal with
  | |- context [Z.compare ?a ?b] => destruct (Z.compare_spec a b)
  | |- context [Pos.compare ?a ?b] => destruct (Pos.compare_spec a b)
  end.

Lemma is_nan_spec x : PrimFloat.is_nan x = true ↔ Prim2SF x = S754_nan.
Proof.
  unfold PrimFloat.is_nan. rewrite FloatAxioms.eqb_spec.
  unfold SFeqb, SFcompare.
  destruct (Prim2SF x) as [[]|[]| |[] m e]; sf_compare; cbn; split; congruence.
Qed.

Lemma is_zero_spec x : PrimFloat.is_zero x = true ↔ ∃ s, Prim2SF x = S754_zero s.
Proof.
  unfold PrimFloat.is_zero. rewrite FloatAxioms.eqb_spec.
  change (Prim2SF PrimFloat.zero) with (S754_zero false).
  unfold SFeqb, SFcompare.
  destruct (Prim2SF x) as [[]|[]| |[] m e]; cbn; split;
    first [ by eauto | by intros [? ?] | done ].
Qed.

Lemma is_infinity_spec x :
  PrimFloat.is_infinity x = true ↔ ∃ s, Prim2SF x = S754_infinity s.
Proof.
  unfold PrimFloat.is_infinity. rewrite FloatAxioms.eqb_spec, abs_spec.
  change (Prim2SF PrimFloat.infinity) with (S754_infinity false).
  unfold SFeqb, SFcompare, SFabs.
  destruct (Prim2SF x) as [[]|[]| |[] m e]; cbn; split;
    first [ by eauto | by intros [? ?] | done ].
Qed.

(** A product with a zero factor is zero or NaN. *)
Lemma mul_zero_l x y :
  PrimFloat.is_zero x = true →
  PrimFloat.is_zero (x * y) = true ∨ PrimFloat.is_nan (x * y) = true.
Proof.
  rewrite !is_zero_spec, is_nan_spec, mul_spec. intros [s ->].
  unfold SF64mul, SFmul. destruct (Prim2SF y); eauto.
Qed.

Lemma mul_zero_r x y :
  PrimFloat.is_zero y = true →
  PrimFloat.is_zero (x * y) = true ∨ PrimFloat.is_nan (x * y) = true.
Proof.
  rewrite !is_zero_spec, is_nan_spec, mul_spec. intros [s ->].
  unfold SF64mul, SFmul. destruct (Prim2SF x); eauto.
Qed.

(** A quotient by zero is NaN or infinite, and NaN when the dividend is zero
    too; a quotient by NaN is NaN. *)
Lemma div_zero x y :
  PrimFloat.is_zero y = true →
  PrimFloat.is_nan (x / y) = true ∨ PrimFloat.is_infinity (x / y) = true.
Proof.
  rewrite is_zero_spec, is_nan_spec, is_infinity_spec, div_spec. intros [s ->].
  unfold SF64div, SFdiv. destruct (Prim2SF x); eauto.
Qed.

Lemma div_zero_zero x y :
  PrimFloat.is_zero x = true → PrimFloat.is_zero y = true →
  PrimFloat.is_nan (x / y) = true.
Proof.
  rewrite !is_zero_spec, is_nan_spec, div_spec. by intros [s ->] [s' ->].
Qed.

Lemma div_nan_r x y :
  PrimFloat.is_nan y = true → PrimFloat.is_nan (x / y) = true.
Proof.
  rewrite !is_nan_spec, div_spec. intros ->.
  unfold SF64div, SFdiv. by destruct (Prim2SF x).
Qed.

Lemma div_nan_l x y :
  PrimFloat.is_nan x = true → PrimFloat.is_nan (x / y) = true.
Proof. rewrite !is_nan_spec, div_spec. by intros ->. Qed.

(** NaN and the infinities are not zero. *)
Lemma nan_or_infinity_not_zero x :
  PrimFloat.is_nan x = true ∨ PrimFloat.is_infinity x = true →
  PrimFloat.is_zero x = false.
Proof.
  rewrite is_nan_spec, is_infinity_spec.
  destruct (PrimFloat.is_zero x) eqn:Hz; [|done].
  apply is_zero_spec in Hz as [s Hs]. rewrite Hs. by intros [|[? ?]].
Qed.

(** numpy puts NaN after every number. *)
Lemma lt_nan_last a b :
  PrimFloat.is_nan b = true → PrimFloat.is_nan a = false → Np.lt a b = true.
Proof.
  unfold Np.lt, PrimFloat.is_nan.
  intros ->%negb_true_iff ->%negb_false_iff. simpl. apply orb_true_r.
Qed.

(** Away from NaN, numpy's order is the order of the floats. *)
Lemma lt_false_leb a b :
  Np.lt a b = false →
  PrimFloat.is_nan a = false → PrimFloat.is_nan b = false →
  PrimFloat.leb b a = true.
Proof.
  intros Hlt Ha Hb.
  assert (Prim2SF a ≠ S754_nan) as Ha' by (rewrite <- is_nan_spec; congruence).
  assert (Prim2SF b ≠ S754_nan) as Hb' by (rewrite <- is_nan_spec; congruence).
  rewrite lt_sf in Hlt. rewrite leb_spec. revert Hlt Ha' Hb'.
  unfold sf_lt, SFltb, SFleb, SFeqb, SFcompare.
  destruct (Prim2SF a) as [[]|[]| |[] m e], (Prim2SF b) as [[]|[]| |[] m' e'];
    sf_compare; cbn; try done; intros; subst; try done; lia.
Qed.

End FloatClass.

(* ===================================================================== *)
(** * The properties of the specification                                *)
(* ===================================================================== *)

(** ** The chunker *)

(** C7. Every chunk the chunker emits is longer than 50 characters once
    stripped; and a single page whose text is "Paris est la capitale de la
    France." yields no chunk with [taille_chunk = 500] and the default
    overlap, whatever its page number. So does, whenever the chunker returns,
    any document whose pages have at most 50 characters each. *)
Theorem chunks_longer_than_50 :
  (∀ pages_texte taille_chunk overlap cs ms,
     decouper_en_chunks pages_texte taille_chunk overlap = Ok (cs, ms) →
     Forall (λ chunk, 50 < len (strip chunk)) cs)
  ∧ (∀ page_num,
     decouper_en_chunks [PageData page_num paris] 500 overlap_defaut = Ok ([], []))
  ∧ (∀ pages_texte taille_chunk overlap cs ms,
     decouper_en_chunks pages_texte taille_chunk overlap = Ok (cs, ms) →
     Forall (λ p, len (texte p) ≤ 50) pages_texte →
     cs = [] ∧ ms = []).
Proof.
  split_and!.
  - intros pages t o cs ms H.
    apply for_each_decouper_page in H as (cs' & ms' & -> & _ & _ & Hlong).
    done.
  - intros page_num. vm_compute. reflexivity.
  - intros pages t o cs ms H Hcourtes.
    apply for_each_decouper_page in H as (cs' & ms' & -> & -> & Hattr & Hlong).
    simpl. pose proof (attribue_pages_courtes _ _ _ Hattr Hcourtes Hlong) as ->.
    split; [done|]. apply attribue_length in Hattr. by destruct ms'.
Qed.

Lemma chunks_longer_than_50_witness :
  Forall (λ chunk, 50 < len (strip chunk)) [verset; psaume].
Proof.
  apply (proj1 chunks_longer_than_50
           [PageData 1 verset; PageData 2 psaume] 500 100 [verset; psaume]
           [{[ "page"%string := 1 ]}; {[ "page"%string := 2 ]}]).
  vm_compute. reflexivity.
Defined.

(** C3, as the code has it. The step of the windows is
    [mots_par_chunk - overlap_mots] as computed, never clamped: on a page
    with words, a step of 0 makes the chunker raise [ValueError] (the body of
    the loop does, and so does the chunker on a document that starts with the
    page), a negative step makes the page contribute nothing, without an
    error, and a step of at least 1 slides the window over the multiples of
    the step below the number of words, at most one window per word. *)
Theorem window_step_not_clamped taille_chunk overlap acc p mots_par_chunk overlap_mots :
  split (texte p) ≠ [] →
  tailles_en_mots taille_chunk overlap (texte p) (split (texte p))
    = Ok (mots_par_chunk, overlap_mots) →
  let mots := split (texte p) in
  let step := mots_par_chunk - overlap_mots in
  pas taille_chunk overlap p = Ok step ∧
  (step = 0 →
     decouper_page taille_chunk overlap acc p
       = Raise (ValueError "range() arg 3 must not be zero") ∧
     ∀ suite,
       decouper_en_chunks (p :: suite) taille_chunk overlap
         = Raise (ValueError "range() arg 3 must not be zero")) ∧
  (step < 0 → decouper_page taille_chunk overlap acc p = Ok acc) ∧
  (0 < step →
     ∃ debuts,
       range 0 (len mots) step = Ok debuts ∧
       decouper_page taille_chunk overlap acc p
         = Ok (foldl (ajouter_fenetre (numero_page p) mots mots_par_chunk) acc debuts) ∧
       (0 < length debuts ≤ length mots)%nat ∧
       ∀ (k : nat) i, debuts !! k = Some i →
         i = Z.of_nat k * step ∧ 0 ≤ i < len mots).
Proof.
  intros Hmots Htailles mots step.
  assert (0 < len mots) as Hlen.
  { unfold len, mots. destruct (split (texte p)); [done|simpl; lia]. }
  assert (∀ acc, decouper_page taille_chunk overlap acc p =
    (debuts ← range 0 (len mots) step;
     Ok (foldl (ajouter_fenetre (numero_page p) mots mots_par_chunk) acc debuts))) as Hpage.
  { intros acc0. unfold decouper_page. fold mots in Htailles |- *.
    destruct mots; [done|]. by rewrite Htailles. }
  split_and!.
  - unfold pas. by rewrite Htailles.
  - intros Hz. split; [by rewrite Hpage, Hz|].
    intros suite. unfold decouper_en_chunks. simpl. by rewrite Hpage, Hz.
  - intros Hneg. rewrite Hpage, range_negative_step by lia. done.
  - intros Hpos.
    destruct (range_positive_step (len mots) step) as (debuts & Hr & Hn & Hle & Hitems);
      [done..|].
    exists debuts. rewrite Hpage, Hr. split_and!; [done|done|lia| |done].
    unfold len in Hle. lia.
Qed.

Lemma window_step_not_clamped_witness :
  pas 500 100 (PageData 1 verset) = Ok 76.
Proof.
  refine (proj1 (window_step_not_clamped 500 100 ([], []) (PageData 1 verset) 95 19 _ _)).
  - discriminate.
  - vm_compute. reflexivity.
Defined.

(** With the default sizes, a page made of one word of 501 characters has a
    step of 0, and the chunker raises. *)
Lemma long_word_raises :
  pas 500 100 (PageData 1 (replicate 501 97%N)) = Ok 0 ∧
  decouper_en_chunks [PageData 1 (replicate 501 97%N)] 500 100
    = Raise (ValueError "range() arg 3 must not be zero").
Proof. vm_compute. repeat split. Qed.

(** C3, as stated, fails: with [taille_chunk = 100] and [overlap = 500] the
    step of a page of 17 words is -76; it is neither clamped nor reported,
    and the page that gives one chunk with the default sizes gives none. *)
Lemma negative_step_is_silent :
  pas 100 500 (PageData 1 verset) = Ok (-76) ∧
  decouper_en_chunks [PageData 1 verset] 100 500 = Ok ([], []) ∧
  decouper_en_chunks [PageData 1 verset] 500 100
    = Ok ([verset], [{[ "page"%string := 1 ]}]).
Proof. vm_compute. repeat split. Qed.

(** ** The index store *)

(** C6, as the code has it. When the chunker returns, chunks and metadata
    have the same length and go page after page: the record at the position
    of a chunk carries the number of the page whose consecutive words the
    chunk joins. When [charger_index] loads a dictionary that has chunks and
    embeddings but no ['metadata'] key, it makes one empty record per chunk,
    which search reports as page ['N/A']; when the key is there, it keeps the
    stored list as it is, whatever its length. *)
Theorem chunks_and_metadata_aligned `{PK : Pickle} :
  (∀ pages_texte taille_chunk overlap cs ms,
     decouper_en_chunks pages_texte taille_chunk overlap = Ok (cs, ms) →
     length cs = length ms ∧
     attribue pages_texte cs ms ∧
     ∀ i c, cs !! i = Some c →
       ∃ p, p ∈ pages_texte ∧ est_fenetre_de p c ∧
            ms !! i = Some {[ "page"%string := numero_page p ]})
  ∧ (∀ fichier_index w f data c e,
     fichiers w !! fichier_index = Some f → loads f = Ok data →
     a_chunks data = Some c → a_embeddings data = Some e →
     let fin := charger_index fichier_index w in
     fin.2 = Ok () ∧ chunks (moteur fin.1) = c ∧
     match a_metadata data with
     | None =>
         metadata (moteur fin.1) = replicate (length c) ∅ ∧
         length (metadata (moteur fin.1)) = length (chunks (moteur fin.1)) ∧
         ∀ idx, page_de (metadata (moteur fin.1)) idx = PageNA
     | Some md => metadata (moteur fin.1) = md
     end).
Proof.
  split.
  - intros pages t o cs ms H.
    apply for_each_decouper_page in H as (cs' & ms' & -> & -> & Hattr & _).
    simpl. split_and!; [by eapply attribue_length|done|].
    intros i c Hc. by eapply attribue_lookup.
  - intros fichier w f data c e Hf Hdata Hc He. simpl.
    rewrite charger_index_run, Hf, Hdata, Hc, He. simpl.
    split_and!; [done..|].
    destruct (a_metadata data) as [md|]; simpl; [done|].
    split_and!; [done|by rewrite length_replicate|].
    intros idx. unfold page_de.
    destruct (replicate (length c) ∅ !! idx) as [md|] eqn:Hidx; [|done].
    apply lookup_replicate in Hidx as [-> _]. by rewrite lookup_empty.
Qed.

Lemma chunks_and_metadata_aligned_witness :
  length [verset; psaume] =
  length [{[ "page"%string := 1 ]}; {[ "page"%string := 2 ]} : meta].
Proof.
  refine (proj1 (proj1 (chunks_and_metadata_aligned (PK := pickle_direct))
    [PageData 1 verset; PageData 2 psaume] 500 100 _ _ _)).
  vm_compute. reflexivity.
Defined.

(** C6, as stated, fails on loading: a dictionary whose ['metadata'] list is
    shorter than its ['chunks'] list loads without an error and leaves one
    chunk with no metadata. *)
Lemma stored_metadata_not_checked :
  let disque : gmap string (option artifact) :=
    {[ INDEX_FILE := Some {| a_chunks := Some [verset];
                             a_embeddings := Some (Some [[1; 0]]%float);
                             a_metadata := Some [];
                             a_model_name := None |} ]} in
  let fin := charger_index INDEX_FILE (@Monde pickle_direct moteur_init disque) in
  fin.2 = Ok () ∧
  length (chunks (moteur fin.1)) = 1%nat ∧
  length (metadata (moteur fin.1)) = 0%nat.
Proof. vm_compute. repeat split. Qed.

(** C4, as the code has it. A run of [indexer_pdf] whose extraction or
    chunking raises leaves the engine and the files exactly as they were, so
    search answers as before. A run whose embedding raises has by then
    replaced the chunks and the metadata, and keeps the embeddings it had. *)
Theorem failed_run_and_loaded_index `{ST : SentenceTransformer} `{PR : PdfReader}
    `{PK : Pickle} chemin_pdf fichier_index w :
  (∀ e, extraire_texte_pdf chemin_pdf = Raise e →
     indexer_pdf chemin_pdf fichier_index w = (w, Raise e)) ∧
  (∀ pages_texte e,
     extraire_texte_pdf chemin_pdf = Ok pages_texte →
     decouper_en_chunks pages_texte taille_chunk_defaut overlap_defaut = Raise e →
     indexer_pdf chemin_pdf fichier_index w = (w, Raise e)) ∧
  (∀ pages_texte c md e,
     extraire_texte_pdf chemin_pdf = Ok pages_texte →
     decouper_en_chunks pages_texte taille_chunk_defaut overlap_defaut = Ok (c, md) →
     encode c = Raise e →
     indexer_pdf chemin_pdf fichier_index w =
       ({| moteur := {| chunks := c;
                        embeddings := embeddings (moteur w);
                        metadata := md |};
           fichiers := fichiers w |},
        Raise e)).
Proof.
  split_and!.
  - intros e He. by rewrite indexer_pdf_run, He.
  - intros pages e Hp He. by rewrite indexer_pdf_run, Hp, He.
  - intros pages c md e Hp Hc He. by rewrite indexer_pdf_run, Hp, Hc, He.
Qed.

Lemma failed_run_and_loaded_index_witness :
  indexer_pdf (ST := modele_a) (PR := lecteur_illisible) (PK := pickle_direct)
    "jean.pdf" INDEX_FILE {| moteur := moteur_charge; fichiers := ∅ |}
  = ({| moteur := moteur_charge; fichiers := ∅ |},
     Raise (ExternalError "PdfReadError")).
Proof.
  refine (proj1 (failed_run_and_loaded_index (ST := modele_a)
    (PR := lecteur_illisible) (PK := pickle_direct) "jean.pdf" INDEX_FILE _) _ _).
  reflexivity.
Defined.

(** C4, as stated, fails when the embedding raises: the engine that held two
    chunks now holds the one chunk of the new document beside the two old
    embeddings, and the search that answered before the run raises
    [IndexError] after it. *)
Lemma failed_embedding_changes_index :
  let avant := {| moteur := moteur_charge; fichiers := ∅ |} in
  let fin := indexer_pdf (ST := modele_en_panne) (PR := lecteur_verset)
               (PK := pickle_direct) "jean.pdf" INDEX_FILE avant in
  fin.2 = Raise (ExternalError "CUDA out of memory") ∧
  chunks (moteur avant) = [verset; psaume] ∧
  chunks (moteur fin.1) = [verset] ∧
  embeddings (moteur fin.1) = embeddings (moteur avant) ∧
  is_ok (rechercher (ST := modele_en_panne) (AS := insertion_argsort)
           (moteur avant) (str "Dieu ?") 3) = true ∧
  rechercher (ST := modele_en_panne) (AS := insertion_argsort)
    (moteur fin.1) (str "Dieu ?") 3 = Raise IndexError.
Proof. vm_compute. repeat split. Qed.

(** C5, as the code has it. [creer_index] writes the name of its model under
    ['model_name'], or ["unknown"] when the model card has none.
    [charger_index] never reads that key: a dictionary with chunks and
    embeddings loads, whatever model name it carries or lacks, into an engine
    of any model. *)
Theorem model_name_written_never_read `{PR : PdfReader} `{PK : Pickle} :
  (∀ (ST : SentenceTransformer) chemin_pdf fichier_index w w',
     creer_index chemin_pdf fichier_index w = (w', Ok ()) →
     ∃ data,
       fichiers w' !! fichier_index = Some (dumps data) ∧
       a_model_name data =
         Some (default "unknown"%string (model_card_vars !! "model_name"%string)))
  ∧ (∀ fichier_index w f data c e,
     fichiers w !! fichier_index = Some f → loads f = Ok data →
     a_chunks data = Some c → a_embeddings data = Some e →
     charger_index fichier_index w =
       ({| moteur := {| chunks := c;
                        embeddings := e;
                        metadata := default (replicate (length c) ∅) (a_metadata data) |};
           fichiers := fichiers w |},
        Ok ())).
Proof.
  split.
  - intros ST chemin fichier w w'. rewrite creer_index_run.
    destruct (extraire_texte_pdf chemin) as [pages|]; [|done].
    destruct (decouper_en_chunks _ _ _) as [[c md]|]; [|done].
    destruct (encode c) as [e|]; [|done].
    intros [= <-]. eexists. simpl. by rewrite lookup_insert_eq.
  - intros fichier w f data c e Hf Hdata Hc He.
    by rewrite charger_index_run, Hf, Hdata, Hc, He.
Qed.

Lemma model_name_written_never_read_witness :
  ∃ data,
    fichiers (creer_index (ST := modele_a) (PR := lecteur_verset)
                (PK := pickle_direct) "jean.pdf" INDEX_FILE
                {| moteur := moteur_init; fichiers := ∅ |}).1 !! INDEX_FILE
      = Some (Some data) ∧
    a_model_name data = Some "modele-a"%string.
Proof.
  refine (proj1 (model_name_written_never_read (PR := lecteur_verset)
    (PK := pickle_direct)) modele_a "jean.pdf" INDEX_FILE
    {| moteur := moteur_init; fichiers := ∅ |} _ _).
  vm_compute. reflexivity.
Defined.

(** C5, as stated, fails: [indexer_pdf] writes no model name; and the index
    [creer_index] wrote with one model loads into an engine of another model,
    which then answers a search with it. *)
Lemma other_model_loads_and_searches :
  let ecrit := (creer_index (ST := modele_a) (PR := lecteur_verset)
                  (PK := pickle_direct) "jean.pdf" INDEX_FILE
                  {| moteur := moteur_init; fichiers := ∅ |}).1 in
  let fin := charger_index (PK := pickle_direct) INDEX_FILE ecrit in
  a_model_name (artifact_of moteur_charge) = None ∧
  model_name (SentenceTransformer := modele_a) = "modele-a"%string ∧
  model_name (SentenceTransformer := modele_b) = "modele-b"%string ∧
  fin.2 = Ok () ∧
  is_ok (rechercher (ST := modele_b) (AS := insertion_argsort)
           (moteur fin.1) (str "Dieu ?") 3) = true.
Proof. vm_compute. repeat split. Qed.

(** C8. Loading the file that the save step wrote gives back the index that
    was saved: the same chunks, the same embeddings and the same metadata, in
    the same order, into whatever engine loads it; so does loading the file
    of a run of [indexer_pdf] that returned. *)
Theorem save_then_load `{ST : SentenceTransformer} `{PR : PdfReader} `{PK : Pickle} :
  (∀ fichier_index w m0,
     let ecrit := (sauvegarder fichier_index w).1 in
     moteur ecrit = moteur w ∧
     charger_index fichier_index {| moteur := m0; fichiers := fichiers ecrit |}
       = ({| moteur := moteur w; fichiers := fichiers ecrit |}, Ok ()))
  ∧ (∀ chemin_pdf fichier_index w w' n m0,
     indexer_pdf chemin_pdf fichier_index w = (w', Ok n) →
     charger_index fichier_index {| moteur := m0; fichiers := fichiers w' |}
       = ({| moteur := moteur w'; fichiers := fichiers w' |}, Ok ())).
Proof.
  split.
  - intros fichier w m0. rewrite sauvegarder_run. simpl. split; [done|].
    rewrite charger_index_run. simpl.
    rewrite lookup_insert_eq, loads_dumps. simpl. by destruct (moteur w).
  - intros chemin fichier w w' n m0. rewrite indexer_pdf_run.
    destruct (extraire_texte_pdf chemin) as [pages|]; [|done].
    destruct (decouper_en_chunks _ _ _) as [[c md]|]; [|done].
    destruct (encode c) as [e|]; [|done].
    intros [= <- _]. rewrite charger_index_run. simpl.
    by rewrite lookup_insert_eq, loads_dumps.
Qed.

Lemma save_then_load_witness :
  let w' := (indexer_pdf (ST := modele_a) (PR := lecteur_verset)
               (PK := pickle_direct) "jean.pdf" INDEX_FILE
               {| moteur := moteur_init; fichiers := ∅ |}).1 in
  charger_index (PK := pickle_direct) INDEX_FILE
    {| moteur := moteur_init; fichiers := fichiers w' |}
  = ({| moteur := moteur w'; fichiers := fichiers w' |}, Ok ()).
Proof.
  refine (proj2 (save_then_load (ST := modele_a) (PR := lecteur_verset)
    (PK := pickle_direct)) "jean.pdf" INDEX_FILE
    {| moteur := moteur_init; fichiers := ∅ |} _ 1 moteur_init _).
  vm_compute. reflexivity.
Defined.

(** ** Search *)

Section Ranking.
Context `{ST : SentenceTransformer} `{AS : Np.Argsort}.

(** The scores of the results follow the values of the selected indices. *)
Lemma resultats_lookup m sims idxs i r :
  imap (resultat_attendu m sims) idxs !! i = Some r →
  ∃ idx, idxs !! i = Some idx ∧ r = resultat_attendu m sims i idx.
Proof.
  rewrite list_lookup_imap. destruct (idxs !! i) as [idx|]; [|done].
  intros [= <-]. by exists idx.
Qed.

Lemma resultats_sorted m sims top_k i j r r' :
  (i < j)%nat →
  imap (resultat_attendu m sims) (top_indices sims top_k) !! i = Some r →
  imap (resultat_attendu m sims) (top_indices sims top_k) !! j = Some r' →
  Np.lt (score r) (score r') = false.
Proof.
  intros Hij (a & Ha & ->)%resultats_lookup (b & Hb & ->)%resultats_lookup. simpl.
  by apply (StronglySorted_lookup _ _ i j a b (top_indices_sorted sims top_k)).
Qed.

Lemma resultats_best m sims top_k r out :
  r ∈ imap (resultat_attendu m sims) (top_indices sims top_k) →
  (out < length sims)%nat → out ∉ top_indices sims top_k →
  Np.lt (score r) (Np.item sims out) = false.
Proof.
  intros (i & (idx & Hidx & ->)%resultats_lookup)%list_elem_of_lookup_1 Hout Hnot.
  simpl. eapply top_indices_best; [|done..]. by eapply list_elem_of_lookup_2.
Qed.

End Ranking.

(** With numpy's insertion sort, of two selected indices of equal value the
    higher one comes first. *)
Lemma top_indices_insertion_stable sims top_k :
  StronglySorted (placed_before sims)
    (top_indices (AS := insertion_argsort) sims top_k).
Proof.
  rewrite top_indices_unfold.
  apply (StronglySorted_reverse (flip (placed_before sims))).
  apply StronglySorted_drop, argsort_insertion_stable.
Qed.

(** C1, as the code has it. On a loaded index of [n >= 1] chunks whose arrays
    have matching shapes, and for [top_k >= 1], [rechercher] returns
    [min(top_k, n)]
    results, for distinct chunks, ranked from 1; no result has a score less
    than a later result or than a chunk left out, in the order numpy sorts by
    (which is [<=] on floats away from NaN). The order of equal scores is the
    one [np.argsort] leaves; with its insertion sort, the chunk of higher
    index comes first, and the similarities [0.9, 0.4, 0.9, 0.1, 0.7] with
    [top_k = 3] give the indices [2, 0, 4] and the scores [0.9, 0.9, 0.7]. *)
Theorem search_returns_top_k_ranked :
  (∀ (ST : SentenceTransformer) (AS : Np.Argsort) m emb question qe qs top_k,
     embeddings m = Some emb →
     encode [question] = Ok (qe :: qs) →
     Forall (λ row, length row = length qe) emb →
     length (chunks m) = length emb →
     (1 ≤ length emb)%nat →
     1 ≤ top_k →
     ∃ sims res,
       similarities emb qe = Ok sims ∧
       rechercher m question top_k = Ok res ∧
       res = imap (resultat_attendu m sims) (top_indices sims top_k) ∧
       len res = Z.min top_k (len emb) ∧
       NoDup (top_indices sims top_k) ∧
       (∀ i j r r', (i < j)%nat → res !! i = Some r → res !! j = Some r' →
          Np.lt (score r) (score r') = false ∧
          (PrimFloat.is_nan (score r) = false →
           PrimFloat.is_nan (score r') = false →
           PrimFloat.leb (score r') (score r) = true)) ∧
       (∀ r out, r ∈ res → (out < length emb)%nat →
          out ∉ top_indices sims top_k →
          Np.lt (score r) (Np.item sims out) = false))
  ∧ (∀ sims top_k i j a b, (i < j)%nat →
       top_indices (AS := insertion_argsort) sims top_k !! i = Some a →
       top_indices (AS := insertion_argsort) sims top_k !! j = Some b →
       Np.lt (Np.item sims b) (Np.item sims a) = false →
       (b < a)%nat)
  ∧ top_indices (AS := insertion_argsort) sims_scenario 3 = [2; 0; 4]%nat
  ∧ Np.item sims_scenario
      <$> top_indices (AS := insertion_argsort) sims_scenario 3
    = [0.9; 0.9; 0.7]%float.
Proof.
  split_and!.
  - intros ST AS m emb question qe qs top_k Hemb Hq Hdim Hlen _ Hk.
    destruct (rechercher_run m emb question qe qs top_k Hemb Hq Hdim Hlen)
      as (sims & Hsims & Hn & Hres).
    exists sims, (imap (resultat_attendu m sims) (top_indices sims top_k)).
    split_and!; [done|done|done| |apply top_indices_NoDup| |].
    + unfold len at 1. rewrite length_imap.
      fold (len (top_indices sims top_k)).
      rewrite top_indices_length_pos by done. unfold len. by rewrite Hn.
    + intros i j r r' Hij Hr Hr'.
      pose proof (resultats_sorted m sims top_k i j r r' Hij Hr Hr') as Hlt.
      split; [done|]. intros Hnan Hnan'. by apply lt_false_leb.
    + intros r out Hr Hout Hnot. eapply resultats_best; [done|lia|done].
  - intros sims top_k i j a b Hij Ha Hb Htie.
    by apply (StronglySorted_lookup _ _ i j a b
                (top_indices_insertion_stable sims top_k) Hij Ha Hb).
  - vm_compute. reflexivity.
  - vm_compute. reflexivity.
Qed.

Lemma search_returns_top_k_ranked_witness :
  ∃ res,
    rechercher (ST := modele_a) (AS := insertion_argsort) moteur_charge
      (str "Dieu ?") 1 = Ok res ∧
    len res = 1.
Proof.
  destruct (proj1 search_returns_top_k_ranked modele_a insertion_argsort
              moteur_charge [[1; 0]; [0; 1]]%float (str "Dieu ?")
              [1; 0]%float [] 1)
    as (sims & res & _ & Hres & _ & Hlen & _).
  - reflexivity.
  - reflexivity.
  - repeat constructor.
  - reflexivity.
  - simpl. lia.
  - lia.
  - exists res. split; [exact Hres | exact Hlen].
Defined.

(** C1, as stated, fails on its own scenario: the tie between the chunks 0
    and 2 goes to the chunk 2. So it does in a search: of the first and the
    third chunk, both of similarity 1, the third is ranked first. *)
Lemma scenario_tie_goes_to_later_chunk :
  top_indices (AS := insertion_argsort) sims_scenario 3 = [2; 0; 4]%nat ∧
  rechercher (ST := modele_a) (AS := insertion_argsort) moteur_ex_aequo
    (str "Dieu ?") 2
  = Ok [ {| rang := 1; score := 1; texte_chunk := genese; page := PageNum 3 |};
         {| rang := 2; score := 1; texte_chunk := verset; page := PageNum 1 |} ].
Proof. vm_compute. repeat split. Qed.

(** C2, as the code has it. The similarity is the plain quotient
    [dot / (norm * norm)], with no test for a zero norm: when the norm of the
    chunk's embedding or of the question's is zero, the similarity is NaN or
    infinite, never 0, and it is NaN when the dot product is zero as well, as
    for an embedding of zeros. numpy then sorts NaN after every number, so
    that no chunk whose similarity is a number is selected while a chunk
    whose similarity is NaN is left out. *)
Theorem zero_norm_gives_nan_or_infinity :
  (∀ emb question_emb sims (i : nat) row,
     similarities emb question_emb = Ok sims →
     emb !! i = Some row →
     PrimFloat.is_zero (Np.norm row) = true ∨
       PrimFloat.is_zero (Np.norm question_emb) = true →
     ∃ s,
       sims !! i = Some s ∧
       (PrimFloat.is_nan s = true ∨ PrimFloat.is_infinity s = true) ∧
       PrimFloat.is_zero s = false ∧
       (PrimFloat.is_zero (Np.dot1 row question_emb) = true →
        PrimFloat.is_nan s = true))
  ∧ (∀ (AS : Np.Argsort) sims top_k idx out,
     idx ∈ top_indices sims top_k →
     (out < length sims)%nat → out ∉ top_indices sims top_k →
     PrimFloat.is_nan (Np.item sims out) = true →
     PrimFloat.is_nan (Np.item sims idx) = true).
Proof.
  split.
  - intros emb qe sims i row Hsims Hrow Hzero.
    eexists. split; [by eapply similarities_lookup|].
    set (d := Np.dot1 row qe).
    assert (PrimFloat.is_zero (Np.norm row * Np.norm qe) = true ∨
            PrimFloat.is_nan (Np.norm row * Np.norm qe) = true) as [Hden|Hden].
    { destruct Hzero; [by apply mul_zero_l | by apply mul_zero_r]. }
    + split_and!.
      * by apply div_zero.
      * by apply nan_or_infinity_not_zero, div_zero.
      * intros Hd. by apply div_zero_zero.
    + pose proof (div_nan_r d _ Hden) as Hnan. split_and!.
      * by left.
      * apply nan_or_infinity_not_zero. by left.
      * done.
  - intros AS sims top_k idx out Hidx Hout Hnot Hnan.
    pose proof (top_indices_best sims top_k idx out Hidx Hout Hnot) as Hlt.
    destruct (PrimFloat.is_nan (Np.item sims idx)) eqn:Hidx_nan; [done|].
    by rewrite lt_nan_last in Hlt.
Qed.

Lemma zero_norm_gives_nan_or_infinity_witness :
  ∃ s, [nan; 0.6]%float !! 0%nat = Some s ∧ PrimFloat.is_zero s = false.
Proof.
  destruct (proj1 zero_norm_gives_nan_or_infinity
              [[0; 0]; [3; 4]]%float [1; 0]%float [nan; 0.6]%float 0%nat
              [0; 0]%float)
    as (s & Hs & _ & Hz & _).
  - vm_compute. reflexivity.
  - reflexivity.
  - left. vm_compute. reflexivity.
  - exists s. split; [exact Hs | exact Hz].
Defined.

(** C2, as stated, fails: the similarity of an embedding of zeros is NaN, not
    0, and the chunk is ranked first, before a chunk of similarity 0.6. *)
Lemma zero_embedding_is_nan_and_first :
  similarities [[0; 0]; [3; 4]]%float [1; 0]%float = Ok [nan; 0.6]%float ∧
  PrimFloat.is_nan nan = true ∧
  PrimFloat.eqb nan 0 = false ∧
  top_indices (AS := insertion_argsort) [nan; 0.6]%float 1 = [0%nat].
Proof. vm_compute. repeat split. Qed.

(** C9. On an engine that has indexed and loaded nothing, [rechercher]
    raises [ValueError("Aucun index chargé")] and the /search endpoint
    answers 400, with no result; so it is after a start with no index file on
    disk, and on any engine without embeddings. A search that returns
    results was made on a loaded index. *)
Theorem search_needs_an_index `{ST : SentenceTransformer} `{AS : Np.Argsort}
    `{PK : Pickle} :
  (∀ question top_k,
     rechercher moteur_init question top_k
       = Raise (ValueError "Aucun index chargé") ∧
     search moteur_init question top_k
       = HTTPException 400 (inl "Aucun PDF indexé"%string))
  ∧ (∀ disque question top_k,
     disque !! INDEX_FILE = None →
     rechercher (moteur (demarrage disque)) question top_k
       = Raise (ValueError "Aucun index chargé"))
  ∧ (∀ m question top_k,
     embeddings m = None →
     rechercher m question top_k = Raise (ValueError "Aucun index chargé") ∧
     search m question top_k = HTTPException 400 (inl "Aucun PDF indexé"%string))
  ∧ (∀ m question top_k res,
     rechercher m question top_k = Ok res → is_Some (embeddings m))
  ∧ (∀ m question top_k res,
     search m question top_k = Reponse res → is_Some (embeddings m)).
Proof.
  split_and!.
  - done.
  - intros disque question top_k Hnone. unfold demarrage. by rewrite Hnone.
  - intros m question top_k Hnone. unfold search, rechercher. by rewrite Hnone.
  - intros m question top_k res. unfold rechercher.
    destruct (embeddings m); [by eauto|done].
  - intros m question top_k res. unfold search.
    destruct (embeddings m); [by eauto|done].
Qed.

Lemma search_needs_an_index_witness :
  rechercher (ST := modele_a) (AS := insertion_argsort)
    (moteur (demarrage (PK := pickle_direct) ∅)) (str "Dieu ?") 3
  = Raise (ValueError "Aucun index chargé").
Proof.
  refine (proj1 (proj2 (search_needs_an_index (ST := modele_a)
    (AS := insertion_argsort) (PK := pickle_direct))) ∅ (str "Dieu ?") 3 _).
  reflexivity.
Defined.

(** C10. On a loaded index of [n >= 1] chunks whose arrays have matching
    shapes, [rechercher] with [top_k = 0] returns [n] results, one for every
    chunk, ranked like any other answer: the slice [[-0:]] keeps the whole
    array. *)
Theorem top_k_zero_returns_every_chunk `{ST : SentenceTransformer}
    `{AS : Np.Argsort} m emb question qe qs :
  embeddings m = Some emb →
  encode [question] = Ok (qe :: qs) →
  Forall (λ row, length row = length qe) emb →
  length (chunks m) = length emb →
  (1 ≤ length emb)%nat →
  ∃ sims res,
    similarities emb qe = Ok sims ∧
    rechercher m question 0 = Ok res ∧
    res = imap (resultat_attendu m sims) (top_indices sims 0) ∧
    top_indices sims 0 ≡ₚ seq 0 (length emb) ∧
    length res = length emb ∧
    res ≠ [] ∧
    (∀ i j r r', (i < j)%nat → res !! i = Some r → res !! j = Some r' →
       Np.lt (score r) (score r') = false).
Proof.
  intros Hemb Hq Hdim Hlen Hn.
  destruct (rechercher_run m emb question qe qs 0 Hemb Hq Hdim Hlen)
    as (sims & Hsims & Hsn & Hres).
  exists sims, (imap (resultat_attendu m sims) (top_indices sims 0)).
  assert (length (imap (resultat_attendu m sims) (top_indices sims 0)) = length emb)
    as Hlength.
  { rewrite length_imap, (Permutation_length (top_indices_zero_perm sims)), length_seq.
    done. }
  split_and!; [done|done|done| |done| |].
  - rewrite <- Hsn. apply top_indices_zero_perm.
  - intros Hnil. rewrite Hnil in Hlength. simpl in Hlength. lia.
  - intros i j r r'. apply resultats_sorted.
Qed.

Lemma top_k_zero_returns_every_chunk_witness :
  ∃ res,
    rechercher (ST := modele_a) (AS := insertion_argsort) moteur_charge
      (str "Dieu ?") 0 = Ok res ∧
    length res = 2%nat.
Proof.
  destruct (top_k_zero_returns_every_chunk (ST := modele_a)
              (AS := insertion_argsort) moteur_charge [[1; 0]; [0; 1]]%float
              (str "Dieu ?") [1; 0]%float [])
    as (sims & res & _ & Hres & _ & _ & Hlen & _).
  - reflexivity.
  - reflexivity.
  - repeat constructor.
  - reflexivity.
  - simpl. lia.
  - exists res. split; [exact Hres | exact Hlen].
Defined.

(* ===================================================================== *)
(** * Further properties of the code                                     *)
(* ===================================================================== *)

(** ** The chunker, page by page *)

Section ChunkerMore.

Lemma for_each_app {A S} (body : S → A → result S) xs ys acc :
  for_each body (xs ++ ys) acc = (acc' ← for_each body xs acc; for_each body ys acc').
Proof.
  revert acc. induction xs as [|x xs IH]; intros acc; simpl; [done|].
  destruct (body acc x) as [acc1|e]; simpl; [apply IH|done].
Qed.

(** The body of the loop only appends to its accumulators. *)
Lemma decouper_page_acc taille_chunk overlap acc p :
  decouper_page taille_chunk overlap acc p =
  ('(cs, ms) ← decouper_page taille_chunk overlap ([], []) p;
   Ok (acc.1 ++ cs, acc.2 ++ ms)).
Proof.
  unfold decouper_page. destruct (split (texte p)) as [|mot mots] eqn:Hmots.
  { simpl. rewrite !app_nil_r. by destruct acc. }
  rewrite <- Hmots.
  destruct (tailles_en_mots _ _ _ _) as [[mpc ov]|e]; [|done]. simpl.
  destruct (range 0 _ _) as [debuts|e]; [|done]. simpl.
  by rewrite !foldl_ajouter_fenetre.
Qed.

Lemma for_each_decouper_page_acc taille_chunk overlap pages acc :
  for_each (decouper_page taille_chunk overlap) pages acc =
  ('(cs, ms) ← for_each (decouper_page taille_chunk overlap) pages ([], []);
   Ok (acc.1 ++ cs, acc.2 ++ ms)).
Proof.
  revert acc. induction pages as [|p pages IH]; intros acc; simpl.
  { rewrite !app_nil_r. by destruct acc. }
  rewrite (decouper_page_acc _ _ acc).
  destruct (decouper_page taille_chunk overlap ([], []) p) as [[c1 m1]|e]; [|done].
  simpl. rewrite (IH (acc.1 ++ c1, acc.2 ++ m1)), (IH (c1, m1)).
  destruct (for_each _ pages ([], [])) as [[c2 m2]|e]; [|done].
  simpl. by rewrite !app_assoc.
Qed.

Lemma split_from_blank s :
  forallb isspace s = true → split_from [] s = [].
Proof.
  induction s as [|c s IH]; simpl; [done|].
  intros [Hc Hs]%andb_true_iff. rewrite Hc. by apply IH.
Qed.

(** A page of whitespace only is skipped, whatever the sizes. *)
Lemma decouper_page_blank taille_chunk overlap acc p :
  forallb isspace (texte p) = true →
  decouper_page taille_chunk overlap acc p = Ok acc.
Proof.
  intros Hblank. unfold decouper_page, split. by rewrite split_from_blank.
Qed.

(** A page adds at most one chunk per word. *)
Lemma decouper_page_count taille_chunk overlap acc p acc' :
  decouper_page taille_chunk overlap acc p = Ok acc' →
  (length acc'.1 ≤ length acc.1 + length (split (texte p)))%nat.
Proof.
  unfold decouper_page. destruct (split (texte p)) as [|mot mots] eqn:Hmots.
  { intros [= <-]. lia. }
  rewrite <- Hmots.
  intros ([mpc ov] & _ & (debuts & Hr & [= <-])%bind_ok)%bind_ok.
  rewrite foldl_ajouter_fenetre. simpl. rewrite length_app.
  assert (length debuts ≤ length (split (texte p)))%nat as Hd.
  { destruct (Z.lt_trichotomy (mpc - ov) 0) as [Hneg|[Hz|Hpos]].
    - rewrite range_negative_step in Hr by (unfold len; lia).
      injection Hr as <-. simpl. lia.
    - by rewrite Hz in Hr.
    - destruct (range_positive_step (len (split (texte p))) (mpc - ov))
        as (debuts' & Hr' & _ & Hle & _); [rewrite Hmots; unfold len; simpl; lia|done|].
      rewrite Hr in Hr'. injection Hr' as <-. unfold len in Hle. lia. }
  unfold fenetres_gardees.
  pose proof (length_filter (λ chunk, 50 < len (strip chunk))
    ((λ i, join (str " ") (slice (split (texte p)) i (i + mpc))) <$> debuts)) as Hf.
  rewrite length_fmap in Hf. lia.
Qed.

End ChunkerMore.

(** X1. The chunker works page by page: the chunks and metadata of two lists
    of pages put end to end are those of the first list followed by those of
    the second, and an error in the first list is the error of the whole. *)
Theorem chunker_of_concatenation pages1 pages2 taille_chunk overlap :
  decouper_en_chunks (pages1 ++ pages2) taille_chunk overlap =
  match decouper_en_chunks pages1 taille_chunk overlap with
  | Raise e => Raise e
  | Ok (cs1, ms1) =>
      match decouper_en_chunks pages2 taille_chunk overlap with
      | Raise e => Raise e
      | Ok (cs2, ms2) => Ok (cs1 ++ cs2, ms1 ++ ms2)
      end
  end.
Proof.
  unfold decouper_en_chunks. rewrite for_each_app.
  destruct (for_each _ pages1 ([], [])) as [[cs1 ms1]|e]; [|done]. simpl.
  rewrite for_each_decouper_page_acc.
  by destruct (for_each _ pages2 ([], [])) as [[cs2 ms2]|e].
Qed.

(** X2. A page whose text is empty or made of whitespace only is skipped: it
    never raises, whatever the sizes, and taking it out of the document
    changes neither the chunks nor the metadata. *)
Theorem blank_page_is_skipped pages1 p pages2 taille_chunk overlap :
  forallb isspace (texte p) = true →
  decouper_en_chunks [p] taille_chunk overlap = Ok ([], []) ∧
  decouper_en_chunks (pages1 ++ p :: pages2) taille_chunk overlap
    = decouper_en_chunks (pages1 ++ pages2) taille_chunk overlap.
Proof.
  intros Hblank.
  assert (decouper_en_chunks [p] taille_chunk overlap = Ok ([], [])) as Hp.
  { unfold decouper_en_chunks. simpl. by rewrite decouper_page_blank. }
  split; [done|].
  unfold decouper_en_chunks. rewrite !for_each_app.
  destruct (for_each _ pages1 ([], [])) as [acc1|]; [|done]. simpl.
  by rewrite decouper_page_blank.
Qed.

Lemma blank_page_is_skipped_witness :
  decouper_en_chunks
    [PageData 1 verset; PageData 2 (str "  "); PageData 3 psaume] 500 100
  = decouper_en_chunks [PageData 1 verset; PageData 3 psaume] 500 100.
Proof.
  refine (proj2 (blank_page_is_skipped [PageData 1 verset] (PageData 2 (str "  "))
                   [PageData 3 psaume] 500 100 _)).
  reflexivity.
Defined.

(** X3. The chunker emits at most one chunk per word of the document. *)
Theorem chunks_at_most_words pages_texte taille_chunk overlap cs ms :
  decouper_en_chunks pages_texte taille_chunk overlap = Ok (cs, ms) →
  (length cs ≤ nombre_de_mots pages_texte)%nat.
Proof.
  unfold decouper_en_chunks.
  assert (∀ acc acc', for_each (decouper_page taille_chunk overlap) pages_texte acc = Ok acc' →
            (length acc'.1 ≤ length acc.1 + nombre_de_mots pages_texte)%nat) as Hgen.
  { induction pages_texte as [|p pages IH]; intros acc acc'; simpl.
    - intros [= <-]. lia.
    - intros (acc1 & Hp%decouper_page_count & Hrest%IH)%bind_ok.
      unfold nombre_de_mots in *. simpl. lia. }
  intros H. apply Hgen in H. simpl in H. lia.
Qed.

Lemma chunks_at_most_words_witness :
  (length [verset; psaume] ≤
   nombre_de_mots [PageData 1 verset; PageData 2 psaume])%nat.
Proof.
  refine (chunks_at_most_words [PageData 1 verset; PageData 2 psaume] 500 100 _
            [{[ "page"%string := 1 ]}; {[ "page"%string := 2 ]}] _).
  vm_compute. reflexivity.
Defined.

(** X4. Every metadata record cites a page of the document whose text has
    more than 50 characters: a page with less is never cited. *)
Theorem cited_pages_have_text pages_texte taille_chunk overlap cs ms (i : nat) md :
  decouper_en_chunks pages_texte taille_chunk overlap = Ok (cs, ms) →
  ms !! i = Some md →
  ∃ p, p ∈ pages_texte ∧ 50 < len (texte p) ∧
       md = {[ "page"%string := numero_page p ]}.
Proof.
  intros H Hmd.
  apply for_each_decouper_page in H as (cs' & ms' & -> & -> & Hattr & Hlong).
  simpl in *.
  destruct (cs' !! i) as [c|] eqn:Hc.
  - destruct (attribue_lookup _ _ _ _ _ Hattr Hc) as (p & Hp & Hf & Hm).
    exists p. split_and!; [done| |congruence].
    apply fenetre_length in Hf. rewrite Forall_forall in Hlong.
    pose proof (Hlong c ltac:(by eapply list_elem_of_lookup_2)). lia.
  - apply lookup_ge_None in Hc. apply lookup_lt_Some in Hmd.
    apply attribue_length in Hattr. lia.
Qed.

Lemma cited_pages_have_text_witness :
  ∃ p, p ∈ [PageData 1 paris; PageData 2 psaume] ∧ 50 < len (texte p) ∧
       ({[ "page"%string := 2 ]} : meta) = {[ "page"%string := numero_page p ]}.
Proof.
  refine (cited_pages_have_text [PageData 1 paris; PageData 2 psaume] 500 100
            [psaume] [{[ "page"%string := 2 ]}] 0 _ _ _).
  - vm_compute. reflexivity.
  - reflexivity.
Defined.

(** ** Words, windows and whitespace *)

Section Words.

Lemma Forall_sublist_of {A} (P : A → Prop) (l1 l2 : list A) :
  l1 `sublist_of` l2 → Forall P l2 → Forall P l1.
Proof.
  induction 1 as [|x l1 l2 _ IH|x l1 l2 _ IH]; intros Hall; [done|..].
  - apply Forall_cons in Hall as [? ?]. constructor; auto.
  - apply Forall_cons in Hall as [? ?]. auto.
Qed.

(** Reading a run of characters that are not whitespace. *)
Lemma split_from_mot mot cur s :
  Forall (λ c, isspace c = false) mot →
  split_from cur (mot ++ s) = split_from (reverse mot ++ cur) s.
Proof.
  intros Hmot. revert cur.
  induction Hmot as [|c mot Hc _ IH]; intros cur; simpl; [done|].
  rewrite Hc, IH, reverse_cons, <- app_assoc. done.
Qed.

Lemma split_from_fin cur : cur ≠ [] → split_from cur [] = [reverse cur].
Proof. by destruct cur. Qed.

Lemma split_from_espace cur c s :
  isspace c = true → cur ≠ [] →
  split_from cur (c :: s) = reverse cur :: split_from [] s.
Proof. intros Hc Hcur. simpl. rewrite Hc. by destruct cur. Qed.

(** What [split] returns is made of words. *)
Lemma split_from_mots cur s :
  Forall (λ c, isspace c = false) cur → Forall est_un_mot (split_from cur s).
Proof.
  revert cur. induction s as [|c s IH]; intros cur Hcur; simpl.
  - destruct cur as [|c' cur]; [constructor|].
    repeat constructor; [|by apply Forall_reverse].
    rewrite reverse_cons. by destruct (reverse cur).
  - destruct (isspace c) eqn:Hc.
    + destruct cur as [|c' cur]; [by apply IH|].
      constructor; [|by apply IH].
      split; [|by apply Forall_reverse].
      rewrite reverse_cons. by destruct (reverse cur).
    + apply IH. by constructor.
Qed.

Lemma split_mots s : Forall est_un_mot (split s).
Proof. by apply split_from_mots. Qed.

(** Splitting what was joined with single spaces gives the words back. *)
Lemma split_join mots :
  Forall est_un_mot mots → split (join (str " ") mots) = mots.
Proof.
  unfold split.
  induction mots as [|mot [|mot' mots] IH]; intros Hmots; [done|..].
  - apply Forall_cons in Hmots as [[Hne Hmot] _]. simpl.
    rewrite <- (app_nil_r mot) at 1.
    rewrite split_from_mot, app_nil_r by done.
    rewrite split_from_fin, reverse_involutive; [done|].
    intros Hrev. apply Hne. by rewrite <- (reverse_involutive mot), Hrev.
  - apply Forall_cons in Hmots as [[Hne Hmot] Hrest].
    change (join (str " ") (mot :: mot' :: mots))
      with (mot ++ 32%N :: join (str " ") (mot' :: mots)).
    rewrite split_from_mot, app_nil_r by done.
    rewrite split_from_espace, reverse_involutive, IH; [done..|].
    intros Hrev. apply Hne. by rewrite <- (reverse_involutive mot), Hrev.
Qed.

(** A text that neither starts nor ends with whitespace is its own strip. *)
Lemma lstrip_id c s : isspace c = false → lstrip (c :: s) = c :: s.
Proof. intros Hc. simpl. by rewrite Hc. Qed.

Lemma join_debut mots :
  Forall est_un_mot mots → mots ≠ [] →
  ∃ c s, join (str " ") mots = c :: s ∧ isspace c = false.
Proof.
  intros Hmots Hne. destruct mots as [|mot mots]; [done|].
  apply Forall_cons in Hmots as [[Hmot Hall] _].
  destruct mot as [|c mot]; [done|]. apply Forall_cons in Hall as [Hc _].
  destruct mots; simpl; eauto.
Qed.

Lemma join_fin mots :
  Forall est_un_mot mots → mots ≠ [] →
  ∃ c s, reverse (join (str " ") mots) = c :: s ∧ isspace c = false.
Proof.
  induction mots as [|mot [|mot' mots] IH]; intros Hmots Hne; [done|..].
  - apply Forall_cons in Hmots as [[Hmot Hall] _]. simpl.
    apply Forall_reverse in Hall.
    destruct (reverse mot) as [|c s] eqn:Hrev.
    { exfalso. apply Hmot. by rewrite <- (reverse_involutive mot), Hrev. }
    apply Forall_cons in Hall as [Hc _]. eauto.
  - apply Forall_cons in Hmots as [_ Hrest].
    destruct (IH Hrest ltac:(done)) as (c & s & Hs & Hc).
    change (join (str " ") (mot :: mot' :: mots))
      with (mot ++ str " " ++ join (str " ") (mot' :: mots)).
    rewrite !reverse_app, Hs. simpl. eauto.
Qed.

Lemma strip_join mots :
  Forall est_un_mot mots → strip (join (str " ") mots) = join (str " ") mots.
Proof.
  intros Hmots. destruct (decide (mots = [])) as [->|Hne]; [done|].
  destruct (join_debut mots Hmots Hne) as (c & s & Hs & Hc).
  destruct (join_fin mots Hmots Hne) as (c' & s' & Hs' & Hc').
  unfold strip. rewrite Hs, lstrip_id by done. rewrite <- Hs, Hs'.
  rewrite lstrip_id by done. by rewrite <- Hs', reverse_involutive.
Qed.

(** ** Slices with bounds that are not negative *)

Lemma slice_nonneg {A} (l : list A) i j :
  0 ≤ i → 0 ≤ j →
  slice l i j = take (Z.to_nat j - Z.to_nat i) (drop (Z.to_nat i) l).
Proof.
  intros Hi Hj. unfold slice, clamp_index, len.
  destruct (Z.ltb_spec i 0); [lia|]. destruct (Z.ltb_spec j 0); [lia|].
  destruct (decide (length l ≤ Z.to_nat i)%nat) as [Hge|Hlt].
  - rewrite !drop_ge by lia. by rewrite !take_nil.
  - replace (Z.to_nat (Z.min i (Z.of_nat (length l)))) with (Z.to_nat i) by lia.
    destruct (decide (Z.to_nat j ≤ length l)%nat).
    + f_equal. lia.
    + rewrite !take_ge; [done|rewrite length_drop; lia..].
Qed.

Lemma slice_app {A} (l : list A) i j k :
  0 ≤ i ≤ j → j ≤ k → slice l i k = slice l i j ++ slice l j k.
Proof.
  intros Hij Hjk. rewrite !slice_nonneg by lia.
  replace (Z.to_nat k - Z.to_nat i)%nat
    with ((Z.to_nat j - Z.to_nat i) + (Z.to_nat k - Z.to_nat j))%nat by lia.
  rewrite <- take_take_drop, drop_drop. do 3 f_equal. lia.
Qed.

Lemma slice_length {A} (l : list A) i j :
  0 ≤ i ≤ j → j ≤ len l → len (slice l i j) = j - i.
Proof.
  intros Hij Hj. rewrite slice_nonneg by lia. unfold len in *.
  rewrite length_take, length_drop. lia.
Qed.

Lemma slice_lookup {A} (l : list A) i j (w : nat) x :
  0 ≤ i → Z.of_nat w < j → (Z.to_nat i ≤ w)%nat →
  l !! w = Some x → slice l i j !! (w - Z.to_nat i)%nat = Some x.
Proof.
  intros Hi Hw Hiw Hx. rewrite slice_nonneg by lia.
  rewrite lookup_take_lt by lia. rewrite lookup_drop.
  by replace (Z.to_nat i + (w - Z.to_nat i))%nat with w by lia.
Qed.

End Words.

Section Windows.

Lemma attribue_fenetres pages cs ms :
  attribue pages cs ms → Forall (λ c, ∃ p, p ∈ pages ∧ est_fenetre_de p c) cs.
Proof.
  induction 1 as [|p pages gardes cs ms Hg _ IH]; [constructor|].
  apply Forall_app. split.
  - eapply Forall_impl; [done|]. intros c Hc. exists p. split; [left|done].
  - eapply Forall_impl; [done|]. intros c (q & Hq & Hc). exists q. split; [by right|done].
Qed.

Lemma fenetre_mots p i j :
  Forall est_un_mot (slice (split (texte p)) i j).
Proof.
  eapply Forall_sublist_of; [apply slice_sublist|apply split_mots].
Qed.

End Windows.

(** X5. Every chunk is free of outer whitespace and has its words separated
    by single spaces, whatever whitespace separated them on the page: it is
    its own [strip], so it has more than 50 characters as it stands, and
    splitting it and joining the words with a space gives it back. *)
Theorem chunks_are_normalised pages_texte taille_chunk overlap cs ms :
  decouper_en_chunks pages_texte taille_chunk overlap = Ok (cs, ms) →
  Forall (λ chunk,
            strip chunk = chunk ∧ 50 < len chunk ∧
            Forall est_un_mot (split chunk) ∧
            join (str " ") (split chunk) = chunk) cs.
Proof.
  intros H.
  apply for_each_decouper_page in H as (cs' & ms' & -> & _ & Hattr & Hlong).
  simpl. apply attribue_fenetres in Hattr.
  rewrite Forall_forall in Hattr, Hlong |- *. intros c Hc.
  destruct (Hattr c Hc) as (p & _ & i & j & ->).
  pose proof (fenetre_mots p i j) as Hmots.
  pose proof (Hlong _ Hc) as Hl. rewrite strip_join in Hl by done.
  rewrite strip_join, split_join by done. done.
Qed.

Lemma chunks_are_normalised_witness :
  Forall (λ chunk,
            strip chunk = chunk ∧ 50 < len chunk ∧
            Forall est_un_mot (split chunk) ∧
            join (str " ") (split chunk) = chunk)
    [str "Le Seigneur est mon berger, je ne manque de rien; sur des pres d'herbe"].
Proof.
  refine (chunks_are_normalised
    [PageData 1 (str "  Le Seigneur   est mon berger,  je ne manque de rien;   sur des pres d'herbe  ")]
    500 100 _ [{[ "page"%string := 1 ]}] _).
  vm_compute. reflexivity.
Defined.

(** X6. Two consecutive windows of a page, at [i] and at [i + step] with
    [step = mots_par_chunk - overlap_mots], share the words from [i + step]
    to [i + mots_par_chunk]: the first window ends with them and the second
    starts with them; they are [overlap_mots] words when the first window is
    a full one. *)
Theorem consecutive_windows_overlap (mots : list pystr) i mots_par_chunk overlap_mots :
  0 ≤ i → 0 ≤ overlap_mots ≤ mots_par_chunk →
  let step := mots_par_chunk - overlap_mots in
  let commun := slice mots (i + step) (i + mots_par_chunk) in
  slice mots i (i + mots_par_chunk) = slice mots i (i + step) ++ commun ∧
  slice mots (i + step) (i + step + mots_par_chunk)
    = commun ++ slice mots (i + mots_par_chunk) (i + step + mots_par_chunk) ∧
  (i + mots_par_chunk ≤ len mots → len commun = overlap_mots).
Proof.
  intros Hi Hov step commun. unfold commun, step. split_and!.
  - apply slice_app; lia.
  - apply slice_app; lia.
  - intros Hfull. rewrite slice_length; lia.
Qed.

Lemma consecutive_windows_overlap_witness :
  slice (split verset) 0 5 = slice (split verset) 0 3 ++ slice (split verset) 3 5.
Proof.
  refine (proj1 (consecutive_windows_overlap (split verset) 0 5 2 _ _)); lia.
Defined.

(** X7. When the overlap is not negative and the step is positive, the
    windows leave no word out: every word of the page is in the window of
    some start of the [range]. (The length test may still drop the window.) *)
Theorem every_word_in_a_window (mots : list pystr) mots_par_chunk overlap_mots
    debuts (w : nat) mot :
  0 ≤ overlap_mots →
  0 < mots_par_chunk - overlap_mots →
  range 0 (len mots) (mots_par_chunk - overlap_mots) = Ok debuts →
  mots !! w = Some mot →
  ∃ i, i ∈ debuts ∧ mot ∈ slice mots i (i + mots_par_chunk).
Proof.
  intros Hov Hstep Hr Hw. set (step := mots_par_chunk - overlap_mots) in *.
  pose proof (lookup_lt_Some _ _ _ Hw) as Hlt.
  unfold range in Hr.
  destruct (Z.eqb_spec step 0); [lia|]. destruct (Z.ltb_spec 0 step); [|lia].
  injection Hr as <-.
  set (k := Z.of_nat w / step).
  assert (0 ≤ k) as Hk0 by (apply Z.div_pos; lia).
  assert (k * step ≤ Z.of_nat w < k * step + step) as Hkw.
  { pose proof (Z.div_mod (Z.of_nat w) step ltac:(lia)) as Hdm.
    pose proof (Z.mod_pos_bound (Z.of_nat w) step ltac:(lia)). unfold k. lia. }
  assert (k < (len mots - 0 + step - 1) / step) as Hcount.
  { replace (len mots - 0 + step - 1) with (len mots - 1 + 1 * step) by lia.
    rewrite Z.div_add by lia.
    assert (k ≤ (len mots - 1) / step); [|lia].
    apply Z.div_le_mono; unfold len; lia. }
  exists (0 + Z.of_nat (Z.to_nat k) * step). split.
  - apply list_elem_of_fmap. exists (Z.to_nat k). split; [done|].
    apply elem_of_seq. lia.
  - rewrite Z2Nat.id by done. simpl.
    eapply list_elem_of_lookup_2.
    apply (slice_lookup mots (k * step) (k * step + mots_par_chunk) w mot); [lia|lia|lia|done].
Qed.

Lemma every_word_in_a_window_witness :
  ∃ i, i ∈ [0; 3; 6; 9; 12; 15] ∧
       str "Dieu." ∈ slice (split verset) i (i + 5).
Proof.
  refine (every_word_in_a_window (split verset) 5 2 [0; 3; 6; 9; 12; 15] 16
            (str "Dieu.") _ _ _ _).
  - lia.
  - lia.
  - vm_compute. reflexivity.
  - vm_compute. reflexivity.
Defined.

(** ** An indexing run that returns *)

Section Run.
Context `{ST : SentenceTransformer} `{PR : PdfReader} `{PK : Pickle}.

Lemma attribue_meta pages cs ms md :
  attribue pages cs ms → md ∈ ms →
  ∃ p, p ∈ pages ∧ md = {[ "page"%string := numero_page p ]}.
Proof.
  induction 1 as [|p pages gardes cs ms _ _ IH]; [by intros ?%elem_of_nil|].
  intros [Hin|Hin]%elem_of_app.
  - apply elem_of_replicate in Hin as [-> _]. exists p. split; [left|done].
  - destruct (IH Hin) as (q & Hq & ->). exists q. split; [by right|done].
Qed.

(** The records follow the pages: when the page numbers increase along the
    document, the numbers cited never decrease along the index. *)
Lemma attribue_sorted pages cs ms :
  attribue pages cs ms →
  StronglySorted (λ p q, numero_page p < numero_page q) pages →
  StronglySorted (λ md1 md2 : meta, ∀ a b,
      md1 !! "page"%string = Some a → md2 !! "page"%string = Some b → a ≤ b) ms.
Proof.
  induction 1 as [|p pages gardes cs ms _ Hattr IH]; [constructor|].
  intros [Hlater Hpages]%StronglySorted_cons.
  apply StronglySorted_app. split_and!.
  - intros md1 md2 [-> _]%elem_of_replicate Hmd2 a b.
    destruct (attribue_meta _ _ _ _ Hattr Hmd2) as (q & Hq & ->).
    rewrite !lookup_singleton_eq. intros [= <-] [= <-].
    rewrite Forall_forall in Hlater. pose proof (Hlater q Hq). lia.
  - induction (length gardes) as [|k IHk]; simpl; constructor; [done|].
    apply Forall_forall. intros md [-> _]%elem_of_replicate a b.
    rewrite !lookup_singleton_eq. intros [= <-] [= <-]. lia.
  - by apply IH.
Qed.

Lemma extraire_texte_pdf_pages chemin_pdf textes :
  extract_pages chemin_pdf = Ok textes →
  ∃ pages,
    extraire_texte_pdf chemin_pdf = Ok pages ∧
    texte <$> pages = textes ∧
    (∀ (i : nat) p, pages !! i = Some p → numero_page p = Z.of_nat i + 1) ∧
    StronglySorted (λ p q, numero_page p < numero_page q) pages.
Proof.
  intros Hext. unfold extraire_texte_pdf. rewrite Hext. simpl.
  eexists. split; [done|].
  assert (∀ (k : nat) (l : list pystr),
    (texte <$> imap (λ i t, PageData (Z.of_nat (k + i) + 1) t) l) = l ∧
    (∀ (i : nat) p, imap (λ i t, PageData (Z.of_nat (k + i) + 1) t) l !! i = Some p →
       numero_page p = Z.of_nat (k + i) + 1) ∧
    StronglySorted (λ p q, numero_page p < numero_page q)
      (imap (λ i t, PageData (Z.of_nat (k + i) + 1) t) l)) as Hgen.
  { intros k l. split_and!.
    - rewrite fmap_imap. simpl. clear. revert k.
      induction l as [|t l IH]; intros k; simpl; [done|]. f_equal.
      specialize (IH (S k)). unfold compose in *.
      etrans; [|exact IH]. apply imap_ext. intros; simpl. done.
    - intros i p. rewrite list_lookup_imap.
      destruct (l !! i); [|done]. by intros [= <-].
    - revert k. induction l as [|t l IH]; intros k; simpl; constructor.
      + specialize (IH (S k)).
        eapply (StronglySorted_weaken _ _ _ (λ p q Hpq, Hpq)).
        erewrite imap_ext; [exact IH|]. intros i x _. simpl. do 2 f_equal. lia.
      + apply Forall_forall. intros q Hq.
        apply list_elem_of_lookup_1 in Hq as [i Hq].
        rewrite list_lookup_imap in Hq. unfold compose in Hq.
        destruct (l !! i); [|done]. injection Hq as <-. simpl. lia. }
  apply (Hgen 0%nat textes).
Qed.

End Run.

(** X8. When [indexer_pdf] returns, the engine holds the chunks of the
    document, the embeddings the model gave for them and as many metadata
    records; the count returned is the number of chunks; the index file holds
    the dump of exactly that index; every record cites a page number from 1
    to the number of pages of the PDF, and the numbers cited never decrease
    along the index. *)
Theorem indexing_run_that_returns `{ST : SentenceTransformer} `{PR : PdfReader}
    `{PK : Pickle} chemin_pdf fichier_index w w' n :
  indexer_pdf chemin_pdf fichier_index w = (w', Ok n) →
  ∃ textes e,
    extract_pages chemin_pdf = Ok textes ∧
    encode (chunks (moteur w')) = Ok e ∧
    embeddings (moteur w') = Some e ∧
    n = len (chunks (moteur w')) ∧
    length (metadata (moteur w')) = length (chunks (moteur w')) ∧
    fichiers w' = <[fichier_index := dumps (artifact_of (moteur w'))]> (fichiers w) ∧
    (∀ md, md ∈ metadata (moteur w') →
       ∃ num, md = {[ "page"%string := num ]} ∧ 1 ≤ num ≤ len textes) ∧
    (∀ (i j : nat) md1 md2 a b, (i < j)%nat →
       metadata (moteur w') !! i = Some md1 → metadata (moteur w') !! j = Some md2 →
       md1 !! "page"%string = Some a → md2 !! "page"%string = Some b → a ≤ b).
Proof.
  rewrite indexer_pdf_run.
  destruct (extract_pages chemin_pdf) as [textes|e0] eqn:Hext.
  2:{ unfold extraire_texte_pdf. by rewrite Hext. }
  destruct (extraire_texte_pdf_pages chemin_pdf textes Hext)
    as (pages & -> & Htextes & Hnum & Hsorted).
  destruct (decouper_en_chunks _ _ _) as [[c md]|e0] eqn:Hdec; [|done].
  destruct (encode c) as [e|e0] eqn:Henc; [|done].
  intros [= <- <-]. simpl.
  apply for_each_decouper_page in Hdec as (cs' & ms' & -> & -> & Hattr & _).
  simpl in *. exists textes, e.
  split_and!; [done|done|done|done|by rewrite (attribue_length _ _ _ Hattr)|done| |].
  - intros md Hmd. destruct (attribue_meta _ _ _ _ Hattr Hmd) as (p & Hp & ->).
    eexists. split; [done|].
    apply list_elem_of_lookup_1 in Hp as [i Hi].
    rewrite (Hnum i p Hi). apply lookup_lt_Some in Hi.
    rewrite <- Htextes. unfold len. rewrite length_fmap. lia.
  - intros i j md1 md2 a b Hij H1 H2.
    apply (StronglySorted_lookup _ _ i j md1 md2 (attribue_sorted _ _ _ Hattr Hsorted));
      done.
Qed.

Lemma indexing_run_that_returns_witness :
  ∃ textes e,
    extract_pages (PdfReader := lecteur_verset) "jean.pdf" = Ok textes ∧
    encode (SentenceTransformer := modele_a) [verset] = Ok e ∧
    len textes = 1.
Proof.
  destruct (indexing_run_that_returns (ST := modele_a) (PR := lecteur_verset)
              (PK := pickle_direct) "jean.pdf" INDEX_FILE
              {| moteur := moteur_init; fichiers := ∅ |}
              (indexer_pdf (ST := modele_a) (PR := lecteur_verset)
                 (PK := pickle_direct) "jean.pdf" INDEX_FILE
                 {| moteur := moteur_init; fichiers := ∅ |}).1 1)
    as (textes & e & Hext & Henc & _).
  - vm_compute. reflexivity.
  - exists textes, e. split; [exact Hext|]. split; [exact Henc|].
    injection Hext as <-. reflexivity.
Defined.

(** ** The service: status, upload, start *)

Section Service.
Context `{ST : SentenceTransformer} `{PR : PdfReader} `{PK : Pickle}.

Lemma chunks_count_len m : chunks_count (get_status m) = len (chunks m).
Proof. unfold get_status. simpl. by destruct (chunks m). Qed.

Lemma temp_path_not_index filename : ("temp_" ++ filename)%string ≠ INDEX_FILE.
Proof. done. Qed.

(** A run of [indexer_pdf] writes at most the index file, and only when it
    returns. *)
Lemma indexer_pdf_fichiers chemin_pdf fichier_index w :
  let fin := indexer_pdf chemin_pdf fichier_index w in
  match fin.2 with
  | Ok _ =>
      fichiers fin.1 =
        <[fichier_index := dumps (artifact_of (moteur fin.1))]> (fichiers w)
  | Raise _ => fichiers fin.1 = fichiers w
  end.
Proof.
  simpl. rewrite indexer_pdf_run.
  destruct (extraire_texte_pdf chemin_pdf) as [pages|]; [|done].
  destruct (decouper_en_chunks _ _ _) as [[c md]|]; [|done].
  by destruct (encode c).
Qed.

(** The [try] block of [upload_pdf], outcome by outcome. *)
Lemma upload_essai_run filename content w :
  let temp_path := ("temp_" ++ filename)%string in
  let ecrit := {| moteur := moteur w;
                  fichiers := <[temp_path := content]> (fichiers w) |} in
  upload_essai temp_path content w =
  match indexer_pdf temp_path INDEX_FILE ecrit with
  | (w1, Ok n) =>
      ({| moteur := moteur w1; fichiers := delete temp_path (fichiers w1) |}, Ok n)
  | (w1, Raise e) => (w1, Raise e)
  end.
Proof.
  simpl. unfold upload_essai, mbind, prog_bind, write_file. simpl.
  pose proof (indexer_pdf_fichiers ("temp_" ++ filename) INDEX_FILE
    {| moteur := moteur w;
       fichiers := <[("temp_" ++ filename)%string := content]> (fichiers w) |}) as Hf.
  simpl in Hf.
  destruct (indexer_pdf _ _ _) as [w1 [n|e]]; [|done]. simpl in *.
  unfold os_remove. rewrite Hf.
  rewrite lookup_insert_ne by (symmetry; apply temp_path_not_index).
  by rewrite lookup_insert_eq.
Qed.

(** [upload_pdf] on a name that ends in ".pdf", outcome by outcome. *)
Lemma upload_pdf_run filename content w :
  endswith filename ".pdf" = true →
  let temp_path := ("temp_" ++ filename)%string in
  let ecrit := {| moteur := moteur w;
                  fichiers := <[temp_path := content]> (fichiers w) |} in
  upload_pdf filename content w =
  match indexer_pdf temp_path INDEX_FILE ecrit with
  | (w1, Ok n) =>
      ({| moteur := moteur w1;
          fichiers := <[INDEX_FILE := dumps (artifact_of (moteur w1))]>
                        (delete temp_path (fichiers w)) |},
       Indexe "PDF indexé avec succès !" n)
  | (w1, Raise e) =>
      ({| moteur := moteur w1; fichiers := delete temp_path (fichiers w) |},
       UploadException 500 (inr e))
  end.
Proof.
  intros Hpdf. simpl. unfold upload_pdf. rewrite Hpdf. simpl.
  rewrite upload_essai_run. simpl.
  pose proof (indexer_pdf_fichiers ("temp_" ++ filename) INDEX_FILE
    {| moteur := moteur w;
       fichiers := <[("temp_" ++ filename)%string := content]> (fichiers w) |}) as Hf.
  simpl in Hf.
  destruct (indexer_pdf _ _ _) as [w1 [n|e]]; simpl in *.
  - rewrite Hf. do 2 f_equal.
    rewrite delete_insert_ne by apply temp_path_not_index.
    by rewrite delete_insert_eq.
  - rewrite Hf, lookup_insert_eq. by rewrite delete_insert_eq.
Qed.

End Service.

(** X9. The /status and /search endpoints agree: /search answers 400 exactly
    when /status reports [indexed = False]; [chunks_count] is the number of
    chunks the engine holds; it is the count [indexer_pdf] returned, with
    [indexed = True], after a run that returned, and 0 with
    [indexed = False] after a start with no index file. *)
Theorem status_agrees_with_search `{ST : SentenceTransformer} `{AS : Np.Argsort}
    `{PR : PdfReader} `{PK : Pickle} :
  (∀ m question top_k,
     indexed (get_status m) = false ↔
     search m question top_k = HTTPException 400 (inl "Aucun PDF indexé"%string))
  ∧ (∀ m, chunks_count (get_status m) = len (chunks m))
  ∧ (∀ chemin_pdf fichier_index w w' n,
     indexer_pdf chemin_pdf fichier_index w = (w', Ok n) →
     get_status (moteur w') = {| indexed := true; chunks_count := n |})
  ∧ (∀ disque,
     disque !! INDEX_FILE = None →
     get_status (moteur (demarrage disque)) = {| indexed := false; chunks_count := 0 |}).
Proof.
  split_and!.
  - intros m question top_k. unfold get_status, search. simpl.
    destruct (embeddings m); [|done].
    split; [done|]. by destruct (rechercher m question top_k).
  - apply chunks_count_len.
  - intros chemin fichier w w' n. rewrite indexer_pdf_run.
    destruct (extraire_texte_pdf chemin) as [pages|]; [|done].
    destruct (decouper_en_chunks _ _ _) as [[c md]|]; [|done].
    destruct (encode c) as [e|]; [|done].
    intros [= <- <-]. unfold get_status. simpl. by destruct c.
  - intros disque Hnone. unfold demarrage. by rewrite Hnone.
Qed.

Lemma status_agrees_with_search_witness :
  get_status
    (moteur (indexer_pdf (ST := modele_a) (PR := lecteur_verset)
               (PK := pickle_direct) "jean.pdf" INDEX_FILE
               {| moteur := moteur_init; fichiers := ∅ |}).1)
  = {| indexed := true; chunks_count := 1 |}.
Proof.
  refine (proj1 (proj2 (proj2 (status_agrees_with_search (ST := modele_a)
    (AS := insertion_argsort) (PR := lecteur_verset) (PK := pickle_direct))))
    "jean.pdf" INDEX_FILE {| moteur := moteur_init; fichiers := ∅ |} _ 1 _).
  vm_compute. reflexivity.
Defined.

(** X10. [upload_pdf] refuses a file whose name does not end in ".pdf" with a
    400 and touches nothing. Otherwise, whether the indexing returns or
    raises, the temporary file is gone afterwards and no file other than it
    and the index file has changed; and when the answer is an error it is a
    500 and the index file on disk is the one from before. *)
Theorem upload_disk_footprint `{ST : SentenceTransformer} `{PR : PdfReader}
    `{PK : Pickle} filename content w :
  let fin := upload_pdf filename content w in
  let temp_path := ("temp_" ++ filename)%string in
  (endswith filename ".pdf" = false →
     fin = (w, UploadException 400 (inl "Le fichier doit être un PDF"%string)))
  ∧ (endswith filename ".pdf" = true →
     fichiers fin.1 !! temp_path = None ∧
     (∀ path, path ≠ temp_path → path ≠ INDEX_FILE →
        fichiers fin.1 !! path = fichiers w !! path) ∧
     (∀ status_code detail,
        fin.2 = UploadException status_code detail →
        status_code = 500 ∧
        fichiers fin.1 !! INDEX_FILE = fichiers w !! INDEX_FILE)).
Proof.
  simpl. split.
  - intros Hpdf. unfold upload_pdf. by rewrite Hpdf.
  - intros Hpdf. rewrite upload_pdf_run by done. simpl.
    destruct (indexer_pdf _ _ _) as [w1 [n|e]]; simpl; split_and!.
    + rewrite lookup_insert_ne by (symmetry; apply temp_path_not_index).
      apply lookup_delete_eq.
    + intros path Htemp Hindex.
      rewrite lookup_insert_ne by done. by rewrite lookup_delete_ne.
    + done.
    + apply lookup_delete_eq.
    + intros path Htemp Hindex. by rewrite lookup_delete_ne.
    + intros status detail [= <- _]. split; [done|].
      rewrite lookup_delete_ne; [done|]. apply temp_path_not_index.
Qed.

Lemma upload_disk_footprint_witness :
  upload_pdf (ST := modele_a) (PR := lecteur_verset) (PK := pickle_direct)
    "jean.txt" None {| moteur := moteur_charge; fichiers := ∅ |}
  = ({| moteur := moteur_charge; fichiers := ∅ |},
     UploadException 400 (inl "Le fichier doit être un PDF"%string)).
Proof.
  refine (proj1 (upload_disk_footprint (ST := modele_a) (PR := lecteur_verset)
    (PK := pickle_direct) "jean.txt" None _) _).
  reflexivity.
Defined.

(** X11. After an upload that succeeded, the count in the answer is the
    number of chunks in memory, /status reports it with [indexed = True], the
    index file holds the dump of the index in memory, and a restart of the
    service on that disk loads exactly that index again. *)
Theorem upload_then_restart `{ST : SentenceTransformer} `{PR : PdfReader}
    `{PK : Pickle} filename content w w' message n :
  upload_pdf filename content w = (w', Indexe message n) →
  n = len (chunks (moteur w')) ∧
  get_status (moteur w') = {| indexed := true; chunks_count := n |} ∧
  fichiers w' !! INDEX_FILE = Some (dumps (artifact_of (moteur w'))) ∧
  moteur (demarrage (fichiers w')) = moteur w'.
Proof.
  destruct (endswith filename ".pdf") eqn:Hpdf.
  2:{ unfold upload_pdf. by rewrite Hpdf. }
  rewrite upload_pdf_run by done. simpl. rewrite indexer_pdf_run.
  destruct (extraire_texte_pdf _) as [pages|]; [|done].
  destruct (decouper_en_chunks _ _ _) as [[c md]|]; [|done].
  destruct (encode c) as [e|]; [|done].
  simpl. intros [= <- _ <-]. simpl. split_and!.
  - done.
  - unfold get_status. simpl. by destruct c.
  - by rewrite lookup_insert_eq.
  - unfold demarrage. rewrite lookup_insert_eq, charger_index_run. simpl.
    by rewrite lookup_insert_eq, loads_dumps.
Qed.

Lemma upload_then_restart_witness :
  let w' := (upload_pdf (ST := modele_a) (PR := lecteur_verset)
               (PK := pickle_direct) "jean.pdf" None
               {| moteur := moteur_init; fichiers := ∅ |}).1 in
  moteur (demarrage (PK := pickle_direct) (fichiers w')) = moteur w'.
Proof.
  refine (proj2 (proj2 (proj2 (upload_then_restart (ST := modele_a)
    (PR := lecteur_verset) (PK := pickle_direct) "jean.pdf" None
    {| moteur := moteur_init; fichiers := ∅ |} _ "PDF indexé avec succès !" 1 _)))).
  vm_compute. reflexivity.
Defined.

(** X12. The start of the service never writes to the disk, and the engine
    has embeddings afterwards only if the index file exists, unpickles, and
    has both ['chunks'] and ['embeddings']; the engine is then the loaded
    index. In every other case the service starts with no embeddings. *)
Theorem start_loads_all_or_no_embeddings `{PK : Pickle} disque :
  fichiers (demarrage disque) = disque ∧
  (is_Some (embeddings (moteur (demarrage disque))) →
   ∃ f data c e,
     disque !! INDEX_FILE = Some f ∧ loads f = Ok data ∧
     a_chunks data = Some c ∧ a_embeddings data = Some (Some e) ∧
     moteur (demarrage disque) =
       {| chunks := c;
          embeddings := Some e;
          metadata := default (replicate (length c) ∅) (a_metadata data) |}).
Proof.
  unfold demarrage.
  destruct (disque !! INDEX_FILE) as [f|] eqn:Hf; simpl.
  2:{ split; [done|]. by intros [? ?]. }
  rewrite charger_index_run. simpl. rewrite Hf.
  destruct (loads f) as [data|] eqn:Hdata; simpl.
  2:{ split; [done|]. by intros [? ?]. }
  destruct (a_chunks data) as [c|] eqn:Hc; simpl.
  2:{ split; [done|]. by intros [? ?]. }
  destruct (a_embeddings data) as [[e|]|] eqn:He; simpl.
  - split; [done|]. intros _. by exists f, data, c, e.
  - split; [done|]. by intros [? ?].
  - split; [done|]. by intros [? ?].
Qed.

Lemma start_loads_all_or_no_embeddings_witness :
  ∃ f data c e,
    ({[ INDEX_FILE := Some (artifact_of moteur_charge) ]}
       : gmap string (option artifact)) !! INDEX_FILE = Some f ∧
    loads (Pickle := pickle_direct) f = Ok data ∧
    a_chunks data = Some c ∧ a_embeddings data = Some (Some e).
Proof.
  destruct (proj2 (start_loads_all_or_no_embeddings (PK := pickle_direct)
              ({[ INDEX_FILE := Some (artifact_of moteur_charge) ]})))
    as (f & data & c & e & Hf & Hdata & Hc & He & _).
  - vm_compute. eexists. reflexivity.
  - exists f, data, c, e. repeat split; assumption.
Defined.

(** ** The index built by create_index.py *)

(** X13. With the same model and the same PDF reader, create_index.py and
    the engine build the same index: [creer_index] returns or raises exactly
    as [indexer_pdf] does, it leaves the engine alone, and loading the file
    it wrote gives the engine [indexer_pdf] would have had. *)
Theorem creer_index_matches_indexer_pdf `{ST : SentenceTransformer}
    `{PR : PdfReader} `{PK : Pickle} chemin_pdf fichier_index w :
  let cree := creer_index chemin_pdf fichier_index w in
  let indexe := indexer_pdf chemin_pdf fichier_index w in
  moteur cree.1 = moteur w ∧
  match cree.2 with
  | Raise e => indexe.2 = Raise e ∧ fichiers cree.1 = fichiers w
  | Ok _ =>
      is_ok indexe.2 = true ∧
      ∀ m0, charger_index fichier_index {| moteur := m0; fichiers := fichiers cree.1 |}
            = ({| moteur := moteur indexe.1; fichiers := fichiers cree.1 |}, Ok ())
  end.
Proof.
  simpl. rewrite creer_index_run, indexer_pdf_run.
  destruct (extraire_texte_pdf chemin_pdf) as [pages|]; [|done].
  destruct (decouper_en_chunks _ _ _) as [[c md]|]; [|done].
  destruct (encode c) as [e|]; [|done].
  simpl. split_and!; [done..|].
  intros m0. rewrite charger_index_run. simpl.
  by rewrite lookup_insert_eq, loads_dumps.
Qed.

(** X14. The script of create_index.py changes nothing but the file
    "index_pdf.pkl", and that only when it runs to its end; with no argument,
    or with the name of a file that does not exist, it exits with code 1. *)
Theorem script_writes_only_the_index `{ST : SentenceTransformer} `{PR : PdfReader}
    `{PK : Pickle} argv w :
  let fin := main argv w in
  moteur fin.1 = moteur w ∧
  (∀ path, path ≠ "index_pdf.pkl"%string →
     fichiers fin.1 !! path = fichiers w !! path) ∧
  (fin.2 ≠ Fin → fichiers fin.1 = fichiers w) ∧
  ((length argv < 2)%nat → fin = (w, SysExit 1)) ∧
  (∀ pdf_file, argv !! 1%nat = Some pdf_file → fichiers w !! pdf_file = None →
     fin = (w, SysExit 1)).
Proof.
  simpl. unfold main.
  destruct (Nat.ltb_spec (length argv) 2) as [Hshort|Hlong].
  { by split_and!. }
  destruct (argv !! 1%nat) as [pdf_file|] eqn:Hargv.
  2:{ split_and!; [done|done|done|lia|done]. }
  destruct (fichiers w !! pdf_file) as [f|] eqn:Hf.
  2:{ split_and!; [done|done|done|lia|done]. }
  assert (∀ pdf, Some pdf_file = Some pdf → fichiers w !! pdf = None → False)
    as Hpdf by (intros pdf [= <-]; congruence).
  rewrite creer_index_run.
  destruct (extraire_texte_pdf pdf_file) as [pages|].
  2:{ split_and!; [done|done|done|lia|]. intros pdf H1 H2. by destruct (Hpdf pdf). }
  destruct (decouper_en_chunks _ _ _) as [[c md]|].
  2:{ split_and!; [done|done|done|lia|]. intros pdf H1 H2. by destruct (Hpdf pdf). }
  destruct (encode c) as [e|].
  2:{ split_and!; [done|done|done|lia|]. intros pdf H1 H2. by destruct (Hpdf pdf). }
  simpl. split_and!; [done| |done|lia|].
  - intros path Hpath. by rewrite lookup_insert_ne.
  - intros pdf H1 H2. by destruct (Hpdf pdf).
Qed.

Lemma script_writes_only_the_index_witness :
  main (ST := modele_a) (PR := lecteur_verset) (PK := pickle_direct)
    ["create_index.py"%string] {| moteur := moteur_init; fichiers := ∅ |}
  = ({| moteur := moteur_init; fichiers := ∅ |}, SysExit 1).
Proof.
  refine (proj1 (proj2 (proj2 (proj2 (script_writes_only_the_index (ST := modele_a)
    (PR := lecteur_verset) (PK := pickle_direct) ["create_index.py"%string] _)))) _).
  simpl. lia.
Defined.

(** ** Search on any engine *)

Section SearchMore.
Context `{ST : SentenceTransformer} `{AS : Np.Argsort}.

Lemma similarities_inv emb qe sims :
  similarities emb qe = Ok sims →
  Forall (λ row, length row = length qe) emb ∧ length sims = length emb.
Proof.
  intros H.
  assert (Forall (λ row, length row = length qe) emb) as Hdim.
  { unfold similarities, Np.dot in H.
    destruct (forallb _ emb) eqn:Hall; [|done].
    apply Forall_forall. intros row Hrow%list_elem_of_In.
    rewrite forallb_forall in Hall. by apply Nat.eqb_eq, Hall. }
  split; [done|].
  destruct (similarities_ok emb qe Hdim) as (sims' & Hs & Hn). congruence.
Qed.


Lemma resultats_depuis_inv m sims i idxs res :
  resultats_depuis m sims i idxs = Ok res →
  Forall (λ idx, (idx < length (chunks m))%nat) idxs.
Proof.
  revert i res. induction idxs as [|idx idxs IH]; intros i res; simpl; [done|].
  intros (r & Hr & (rs & Hrs & _)%bind_ok)%bind_ok.
  constructor; [|by eapply IH].
  unfold un_resultat, index in Hr.
  destruct (chunks m !! idx) eqn:Hc; [|done]. by eapply lookup_lt_Some.
Qed.

Lemma resultats_depuis_raise m sims i idxs :
  Exists (λ idx, (length (chunks m) ≤ idx)%nat) idxs →
  resultats_depuis m sims i idxs = Raise IndexError.
Proof.
  intros Hex. revert i.
  induction Hex as [idx idxs Hidx|idx idxs Hex IH]; intros i; simpl.
  - unfold un_resultat, index. by rewrite (lookup_ge_None_2 _ _ Hidx).
  - unfold un_resultat, index. destruct (chunks m !! idx); simpl; [|done].
    by rewrite IH.
Qed.


(** [rechercher] once the question is embedded. *)
Lemma rechercher_encode m emb question qe qs top_k :
  embeddings m = Some emb →
  encode [question] = Ok (qe :: qs) →
  rechercher m question top_k =
  sims ← similarities emb qe;
  resultats_depuis m sims 0 (top_indices sims top_k).
Proof. intros Hemb Hq. unfold rechercher. by rewrite Hemb, Hq. Qed.

Lemma top_indices_all sims top_k :
  top_k = 0 ∨ len sims ≤ top_k →
  top_indices sims top_k ≡ₚ seq 0 (length sims).
Proof.
  intros Hk. rewrite top_indices_unfold.
  replace (Z.to_nat (clamp_index (len sims) (- top_k))) with 0%nat.
  - by rewrite drop_0, reverse_Permutation, Np.argsort_perm.
  - unfold clamp_index, len in *. destruct (Z.ltb_spec (- top_k) 0); lia.
Qed.

End SearchMore.





(** X17. Whatever the engine holds, a search that returns cites chunks that
    exist: the results are ranked 1, 2, ... and the result of rank [i + 1] is
    made from one index below the number of embeddings and of chunks: its
    text is the chunk at that index, its score the similarity at that index,
    its page the one of the metadata record at that index, or 'N/A' when the
    metadata list is too short. No index is used twice. *)
Theorem results_cite_their_chunk `{ST : SentenceTransformer} `{AS : Np.Argsort}
    m question top_k res :
  rechercher m question top_k = Ok res →
  ∃ emb q qe sims,
    embeddings m = Some emb ∧ encode [question] = Ok q ∧ q !! 0%nat = Some qe ∧
    similarities emb qe = Ok sims ∧
    length res = length (top_indices sims top_k) ∧
    NoDup (top_indices sims top_k) ∧
    ∀ (i : nat) r, res !! i = Some r →
      rang r = Z.of_nat i + 1 ∧
      ∃ idx, top_indices sims top_k !! i = Some idx ∧
        (idx < length emb)%nat ∧
        chunks m !! idx = Some (texte_chunk r) ∧
        sims !! idx = Some (score r) ∧
        page r = page_de (metadata m) idx ∧
        ((length (metadata m) ≤ idx)%nat → page r = PageNA).
Proof.
  unfold rechercher. destruct (embeddings m) as [emb|] eqn:Hemb; [|done].
  intros (q & Hq & (qe & Hqe & (sims & Hsims & Hres)%bind_ok)%bind_ok)%bind_ok.
  exists emb, q, qe, sims.
  unfold index in Hqe. destruct (q !! 0%nat) as [qe'|] eqn:Hq0; [|done].
  injection Hqe as ->.
  pose proof (resultats_depuis_inv _ _ _ _ _ Hres) as Hall.
  rewrite (resultats_depuis_ok m sims 0 _ Hall) in Hres. injection Hres as <-.
  destruct (similarities_inv _ _ _ Hsims) as (_ & Hn).
  split_and!; [done|done|done|done|by rewrite length_imap|apply top_indices_NoDup|].
  intros i r (idx & Hidx & ->)%resultats_lookup. simpl. split; [done|].
  exists idx.
  assert (idx ∈ top_indices sims top_k) as Hin by by eapply list_elem_of_lookup_2.
  pose proof (top_indices_bound _ _ _ Hin) as Hb.
  rewrite Forall_forall in Hall. pose proof (Hall idx Hin) as Hc.
  split_and!; [done|lia| | |done|].
  - apply lookup_lt_is_Some_2 in Hc as [t Ht].
    by rewrite (nth_lookup_Some _ _ _ _ Ht).
  - apply lookup_lt_is_Some_2 in Hb as [x Hx].
    unfold Np.item. rewrite Hx. f_equal. symmetry.
    by apply nth_lookup_Some.
  - intros Hshort. unfold page_de. by rewrite (lookup_ge_None_2 _ _ Hshort).
Qed.

Lemma results_cite_their_chunk_witness :
  ∃ emb q qe sims,
    embeddings moteur_charge = Some emb ∧
    encode (SentenceTransformer := modele_a) [str "Dieu ?"] = Ok q ∧
    q !! 0%nat = Some qe ∧
    similarities emb qe = Ok sims.
Proof.
  destruct (results_cite_their_chunk (ST := modele_a) (AS := insertion_argsort)
              moteur_charge (str "Dieu ?") 1
              [resultat_attendu moteur_charge [1; 0]%float 0 0])
    as (emb & q & qe & sims & Hemb & Hq & Hqe & Hsims & _).
  - vm_compute. reflexivity.
  - exists emb, q, qe, sims. repeat split; assumption.
Defined.

(** X18. On a loaded index whose embeddings have the dimension of the
    question, the search returns exactly when every selected index has a
    chunk, and raises [IndexError] (a 500 of the endpoint) otherwise. So it
    always returns when there are at least as many chunks as embeddings, and
    it always fails when there are fewer and [top_k] selects every index
    ([top_k = 0], or at least the number of embeddings). *)
Theorem search_fails_on_a_missing_chunk `{ST : SentenceTransformer}
    `{AS : Np.Argsort} m emb question qe qs top_k sims :
  embeddings m = Some emb →
  encode [question] = Ok (qe :: qs) →
  similarities emb qe = Ok sims →
  (Forall (λ idx, (idx < length (chunks m))%nat) (top_indices sims top_k) →
     rechercher m question top_k
       = Ok (imap (resultat_attendu m sims) (top_indices sims top_k))) ∧
  (Exists (λ idx, (length (chunks m) ≤ idx)%nat) (top_indices sims top_k) →
     rechercher m question top_k = Raise IndexError ∧
     search m question top_k = HTTPException 500 (inr IndexError)) ∧
  ((length emb ≤ length (chunks m))%nat →
     is_ok (rechercher m question top_k) = true) ∧
  ((length (chunks m) < length emb)%nat → top_k = 0 ∨ len emb ≤ top_k →
     rechercher m question top_k = Raise IndexError).
Proof.
  intros Hemb Hq Hsims.
  pose proof (rechercher_encode m emb question qe qs top_k Hemb Hq) as Hr.
  rewrite Hsims in Hr. simpl in Hr.
  destruct (similarities_inv _ _ _ Hsims) as (_ & Hn).
  split_and!.
  - intros Hall. by rewrite Hr, resultats_depuis_ok.
  - intros Hex. rewrite Hr, resultats_depuis_raise by done.
    split; [done|]. unfold search. by rewrite Hemb, Hr, resultats_depuis_raise.
  - intros Hlen. rewrite Hr, resultats_depuis_ok; [done|].
    apply Forall_forall. intros idx Hidx%top_indices_bound. lia.
  - intros Hlen Hk. rewrite Hr. apply resultats_depuis_raise.
    apply Exists_exists. exists (length (chunks m)). split; [|lia].
    rewrite top_indices_all by (unfold len in *; lia).
    apply elem_of_seq. lia.
Qed.

Lemma search_fails_on_a_missing_chunk_witness :
  search (ST := modele_a) (AS := insertion_argsort)
    {| chunks := [verset];
       embeddings := Some [[1; 0]; [0; 1]]%float;
       metadata := [{[ "page"%string := 1 ]}] |}
    (str "Dieu ?") 3
  = HTTPException 500 (inr IndexError).
Proof.
  refine (proj2 (proj1 (proj2 (search_fails_on_a_missing_chunk (ST := modele_a)
    (AS := insertion_argsort)
    {| chunks := [verset];
       embeddings := Some [[1; 0]; [0; 1]]%float;
       metadata := [{[ "page"%string := 1 ]}] |}
    [[1; 0]; [0; 1]]%float (str "Dieu ?") [1; 0]%float [] 3
    (Np.divide [1; 0]%float (Np.times (Np.norm_axis1 [[1; 0]; [0; 1]]%float)
                               (Np.norm [1; 0]%float)))
    eq_refl eq_refl eq_refl)) _)).
  vm_compute. apply Exists_cons_tl, Exists_cons_hd. lia.
Defined.

(** ** A load that fails *)

(** X19. [charger_index] never writes to the disk. When it raises, the
    embeddings and the metadata of the engine are those from before; the
    chunks are those from before too, unless the file unpickles to a
    dictionary with ['chunks'] and without ['embeddings']: the error is then
    [KeyError('embeddings')] and the chunks of the file have replaced those
    of the engine. *)
Theorem failed_load_effects `{PK : Pickle} fichier_index w :
  let fin := charger_index fichier_index w in
  fichiers fin.1 = fichiers w ∧
  ∀ e, fin.2 = Raise e →
    embeddings (moteur fin.1) = embeddings (moteur w) ∧
    metadata (moteur fin.1) = metadata (moteur w) ∧
    (fin.1 = w ∨
     ∃ f data c,
       fichiers w !! fichier_index = Some f ∧ loads f = Ok data ∧
       a_chunks data = Some c ∧ a_embeddings data = None ∧
       e = KeyError "embeddings" ∧ chunks (moteur fin.1) = c).
Proof.
  simpl. rewrite charger_index_run.
  destruct (fichiers w !! fichier_index) as [f|] eqn:Hf; simpl.
  2:{ split; [done|]. intros e _. split_and!; [done..|by left]. }
  destruct (loads f) as [data|e0] eqn:Hdata; simpl.
  2:{ split; [done|]. intros e _. split_and!; [done..|by left]. }
  destruct (a_chunks data) as [c|] eqn:Hc; simpl.
  2:{ split; [done|]. intros e _. split_and!; [done..|by left]. }
  destruct (a_embeddings data) as [e1|] eqn:He; simpl.
  { split; [done|]. by intros e. }
  split; [done|]. intros e [= <-]. split_and!; [done..|].
  right. by exists f, data, c.
Qed.

Lemma failed_load_effects_witness :
  let w := @Monde pickle_direct moteur_charge
             {[ INDEX_FILE := Some (Artifact (Some [genese]) None None None) ]} in
  embeddings (moteur (charger_index (PK := pickle_direct) INDEX_FILE w).1)
    = embeddings moteur_charge ∧
  chunks (moteur (charger_index (PK := pickle_direct) INDEX_FILE w).1) = [genese].
Proof.
  simpl.
  destruct (proj2 (failed_load_effects (PK := pickle_direct) INDEX_FILE
              (@Monde pickle_direct moteur_charge
                 {[ INDEX_FILE := Some (Artifact (Some [genese]) None None None) ]}))
              (KeyError "embeddings"))
    as (Hemb & _ & _).
  - vm_compute. reflexivity.
  - split; [exact Hemb|]. vm_compute. reflexivity.
Defined.
